(** * X11KVS proof-of-work hash (libmultihash/x11kvs.c)

    A shallow embedding of [sha256_double_hash], [x11kv], [x11kvshash] and
    [x11kvs_hash], and the properties of the chained leaf hash, of the
    drifting recursive tree hash and of the entry point.

    Buffers are lists of bytes.  A [const char *] argument is modelled by the
    bytes of the object it points to; a read that runs past the end of that
    object has no defined behaviour in C and is [None] in the model.  The
    heap ([malloc]/[free]) and the size of the call stack are not part of
    the model. *)

From Stdlib Require Import ZArith List Lia Bool.
From Stdlib Require Import Init.Byte Strings.Byte.
Import ListNotations.
Local Open Scope Z_scope.

(** ** Bytes and machine integers *)

(** An [unsigned char] seen as an [unsigned int]. *)
Definition Z_of_byte (b : byte) : Z := Z.of_N (Byte.to_N b).

(** Conversion to [uint8_t]: the low eight bits. *)
Definition byte_of_Z (z : Z) : byte :=
  match Byte.of_N (Z.to_N (z mod 256)) with
  | Some b => b
  | None => x00
  end.

(** Reduction to [uint32_t] / [unsigned int]. *)
Definition u32 (z : Z) : Z := z mod 2 ^ 32.

(** [p[i]] for a byte pointer [p]. *)
Definition byte_at (p : list byte) (i : nat) : Z := Z_of_byte (nth i p x00).

(** [memcpy (dst, src, n)]: the [n] bytes that land in [dst]. *)
Definition memcpy (src : list byte) (n : nat) : list byte := firstn n src.

(** A read of [n] bytes at offset [off] of the object behind a pointer
    argument; [None] when the object is too short for it. *)
Definition read (buf : list byte) (off n : nat) : option (list byte) :=
  if (off + n <=? length buf)%nat then Some (firstn n (skipn off buf)) else None.

(** Modelled from the spec: the little-endian fixed-width decode helper
    [le32dec], whose definition is in a header outside this file; it reads
    [p[0..3]], least significant byte first. *)
Definition le32dec (p : list byte) : Z :=
  Z.lor (Z.lor (Z.lor (byte_at p 0) (Z.shiftl (byte_at p 1) 8))
               (Z.shiftl (byte_at p 2) 16))
        (Z.shiftl (byte_at p 3) 24).

(** Modelled from the spec: the little-endian fixed-width encode helper
    [le32enc], whose definition is in a header outside this file; it writes
    four bytes, least significant first. *)
Definition le32enc (x : Z) : list byte :=
  [ byte_of_Z (Z.land x 255);
    byte_of_Z (Z.land (Z.shiftr x 8) 255);
    byte_of_Z (Z.land (Z.shiftr x 16) 255);
    byte_of_Z (Z.land (Z.shiftr x 24) 255) ].

(** ** The external hash primitives

    The eleven 512-bit sph functions and SHA-256 live in other files.  Each
    [init]/[update]/[close] triple of the source is the function from the
    message to the digest written by [close]. *)
Record primitives : Type := {
  sph_blake512 : list byte -> list byte;
  sph_bmw512 : list byte -> list byte;
  sph_groestl512 : list byte -> list byte;
  sph_jh512 : list byte -> list byte;
  sph_keccak512 : list byte -> list byte;
  sph_skein512 : list byte -> list byte;
  sph_luffa512 : list byte -> list byte;
  sph_cubehash512 : list byte -> list byte;
  sph_shavite512 : list byte -> list byte;
  sph_simd512 : list byte -> list byte;
  sph_echo512 : list byte -> list byte;
  SHA256 : list byte -> list byte
}.

(** The digest sizes of the interface: 64 bytes for every sph function,
    32 bytes for SHA-256. *)
Definition digest_sizes (P : primitives) : Prop :=
  Forall (fun f : list byte -> list byte => forall m, length (f m) = 64%nat)
         [ sph_blake512 P; sph_bmw512 P; sph_groestl512 P; sph_jh512 P;
           sph_keccak512 P; sph_skein512 P; sph_luffa512 P; sph_cubehash512 P;
           sph_shavite512 P; sph_simd512 P; sph_echo512 P ]
  /\ forall m, length (SHA256 P m) = 32%nat.

(** A small instance of the interface on which the model can be run: a
    position-dependent checksum, not a cryptographic hash. *)
Definition checksum (m : list byte) : Z :=
  fold_left (fun a b => (a * 31 + Z_of_byte b + 1) mod 65521) m 7.

Definition toy_digest (salt : Z) (len : nat) (m : list byte) : list byte :=
  map (fun j => byte_of_Z (salt + 29 * Z.of_nat j + (Z.of_nat j + 3) * checksum m))
      (seq 0 len).

Definition toy : primitives := {|
  sph_blake512 := toy_digest 1 64;
  sph_bmw512 := toy_digest 2 64;
  sph_groestl512 := toy_digest 3 64;
  sph_jh512 := toy_digest 4 64;
  sph_keccak512 := toy_digest 5 64;
  sph_skein512 := toy_digest 6 64;
  sph_luffa512 := toy_digest 7 64;
  sph_cubehash512 := toy_digest 8 64;
  sph_shavite512 := toy_digest 9 64;
  sph_simd512 := toy_digest 10 64;
  sph_echo512 := toy_digest 11 64;
  SHA256 := toy_digest 12 32
|}.

(** ** The program *)

Declare Scope run_scope.
Notation "x <- c ;; k" := (match c with Some x => k | None => None end)
  (at level 61, c at next level, right associativity) : run_scope.
Local Open Scope run_scope.

Section Program.

Variable P : primitives.

(** [sha256_double_hash]: SHA-256 of the first [len] bytes of [input], then
    SHA-256 of the 32-byte [temp]. *)
Definition sha256_double_hash (input : list byte) (len : nat) : list byte :=
  let temp := SHA256 P (firstn len input) in
  SHA256 P (firstn 32 temp).

Definition HASHX11KV_MIN_NUMBER_ITERATIONS : Z := 2.
Definition HASHX11KV_MAX_NUMBER_ITERATIONS : Z := 6.
Definition HASHX11KV_NUMBER_ALGOS : Z := 11.

(** The [switch] of [x11kv]: the function run for selector value [k]. *)
Definition x11kv_case (k : Z) : option (list byte -> list byte) :=
  match k with
  | 0 => Some (sph_blake512 P)
  | 1 => Some (sph_bmw512 P)
  | 2 => Some (sph_groestl512 P)
  | 3 => Some (sph_skein512 P)
  | 4 => Some (sph_jh512 P)
  | 5 => Some (sph_keccak512 P)
  | 6 => Some (sph_luffa512 P)
  | 7 => Some (sph_cubehash512 P)
  | 8 => Some (sph_shavite512 P)
  | 9 => Some (sph_simd512 P)
  | 10 => Some (sph_echo512 P)
  | _ => None
  end.

(** The body of the [for] loop of [x11kv] at loop index [i]: the selected
    function reads the 64 bytes of [hashA] and overwrites them; a selector
    without a [case] leaves [hashA] as it is. *)
Definition x11kv_round (hashA : list byte) (i : Z) : list byte :=
  match x11kv_case (byte_at hashA (Z.to_nat (i mod 64)) mod HASHX11KV_NUMBER_ALGOS) with
  | Some f => f (firstn 64 hashA)
  | None => hashA
  end.

(** [x11kv]: iteration 0 is blake512 over the 80 bytes at [input]; the loop
    runs for [i = 1, ..., n - 1]; the output is the first 32 bytes of [hashA]. *)
Definition x11kv (input : list byte) : option (list byte) :=
  header <- read input 0 80 ;;
  let hashA := sph_blake512 P header in
  let n := HASHX11KV_MIN_NUMBER_ITERATIONS
           + byte_at hashA 63
             mod (HASHX11KV_MAX_NUMBER_ITERATIONS - HASHX11KV_MIN_NUMBER_ITERATIONS + 1) in
  let hashA := fold_left x11kv_round (map Z.of_nat (seq 1 (Z.to_nat (n - 1)))) hashA in
  Some (memcpy hashA 32).

Definition HASHX11KVS_MAX_LEVEL : Z := 7.
Definition HASHX11KVS_MIN_LEVEL : Z := 1.
Definition HASHX11KVS_MAX_DRIFT : Z := 65535.

(** The nonce of a child: [nonce + (le32dec (hash + off) % HASHX11KVS_MAX_DRIFT)]
    in [uint32_t] arithmetic. *)
Definition nextnonce (nonce : Z) (hash : list byte) (off : nat) : Z :=
  u32 (nonce + le32dec (skipn off hash) mod HASHX11KVS_MAX_DRIFT).

(** The header of a child: 76 bytes copied from [input], then the nonce
    written by [le32enc] at offset 76; the 80 bytes are then copied to the
    buffer handed to the recursive call. *)
Definition nextheader (input : list byte) (nonce' : Z) : list byte :=
  memcpy (memcpy input 76 ++ le32enc nonce') 80.

(** [x11kvshash], by recursion on the number [d] of descents left.  [x11kv]
    runs first and reads the 80 bytes at [input], so the later reads of
    [input] are inside the object.  [x11kvshash] below starts with
    [d = depth level], for which the branch [d = O] is only reached at the
    terminal level ([x11kvshash_eq] is the recursion equation of the source,
    without [d]). *)
Fixpoint x11kvshash_n (d : nat) (input : list byte) (level : Z) : option (list byte) :=
  hash <- x11kv input ;;
  if level =? HASHX11KVS_MIN_LEVEL then Some (memcpy hash 32)
  else
    let nonce := le32dec (skipn 76 input) in
    let nextheader1 := nextheader input (nextnonce nonce hash 24) in
    let nextheader2 := nextheader input (nextnonce nonce hash 28) in
    match d with
    | O => None
    | S d' =>
        hash1 <- x11kvshash_n d' nextheader1 (u32 (level - 1)) ;;
        hash2 <- x11kvshash_n d' nextheader2 (u32 (level - 1)) ;;
        let hashConcated := memcpy hash 32 ++ memcpy hash1 32 ++ memcpy hash2 32 in
        Some (sha256_double_hash hashConcated 96)
    end.

(** The number of recursive descents from [level] down to
    [HASHX11KVS_MIN_LEVEL], the [unsigned int] counter wrapping below zero. *)
Definition depth (level : Z) : nat := Z.to_nat (u32 (level - HASHX11KVS_MIN_LEVEL)).

Definition x11kvshash (input : list byte) (level : Z) : option (list byte) :=
  x11kvshash_n (depth level) input level.

(** [x11kvs_hash]: the public entry point; [len] is not used. *)
Definition x11kvs_hash (input : list byte) (len : Z) : option (list byte) :=
  x11kvshash input HASHX11KVS_MAX_LEVEL.

End Program.

(** The call log of [x11kvshash]: the same recursion, returning with the
    digest the list of the inputs [x11kv] was called on, in call order. *)
Fixpoint x11kvshash_log_n (P : primitives) (d : nat) (input : list byte) (level : Z)
  : option (list byte * list (list byte)) :=
  hash <- x11kv P input ;;
  if level =? HASHX11KVS_MIN_LEVEL then Some (memcpy hash 32, [input])
  else
    let nonce := le32dec (skipn 76 input) in
    let nextheader1 := nextheader input (nextnonce nonce hash 24) in
    let nextheader2 := nextheader input (nextnonce nonce hash 28) in
    match d with
    | O => None
    | S d' =>
        r1 <- x11kvshash_log_n P d' nextheader1 (u32 (level - 1)) ;;
        r2 <- x11kvshash_log_n P d' nextheader2 (u32 (level - 1)) ;;
        let hashConcated := memcpy hash 32 ++ memcpy (fst r1) 32 ++ memcpy (fst r2) 32 in
        Some (sha256_double_hash P hashConcated 96, input :: snd r1 ++ snd r2)
    end.

Definition x11kvshash_log (P : primitives) (input : list byte) (level : Z)
  : option (list byte * list (list byte)) :=
  x11kvshash_log_n P (depth level) input level.

(** The body of [x11kvshash], the two recursive calls being [rec]. *)
Definition x11kvshash_body (P : primitives)
  (rec : list byte -> Z -> option (list byte)) (input : list byte) (level : Z)
  : option (list byte) :=
  hash <- x11kv P input ;;
  if level =? HASHX11KVS_MIN_LEVEL then Some (memcpy hash 32)
  else
    let nonce := le32dec (skipn 76 input) in
    hash1 <- rec (nextheader input (nextnonce nonce hash 24)) (u32 (level - 1)) ;;
    hash2 <- rec (nextheader input (nextnonce nonce hash 28)) (u32 (level - 1)) ;;
    Some (sha256_double_hash P (memcpy hash 32 ++ memcpy hash1 32 ++ memcpy hash2 32) 96).

(** ** The specification's reading of the two layers *)

(** The little-endian unsigned 32-bit integer at offset [off] of [buf]. *)
Definition le_uint32_at (buf : list byte) (off : nat) : Z :=
  byte_at buf off + 256 * byte_at buf (off + 1)
  + 65536 * byte_at buf (off + 2) + 16777216 * byte_at buf (off + 3).

(** The four bytes of [x], least significant first. *)
Definition le_bytes (x : Z) : list byte :=
  map (fun j => byte_of_Z (x / 256 ^ j mod 256)) [0; 1; 2; 3].

(** The working digest after round [i] of the leaf hash, for primitives
    [H 0, ..., H 10] given by index: round 0 is [H 0] on the header, round
    [i > 0] applies [H k] to the digest of round [i - 1], [k] being its byte
    at offset [i mod 64], modulo 11. *)
Fixpoint workingDigest (H : Z -> list byte -> list byte) (header : list byte) (i : nat)
  : list byte :=
  match i with
  | O => H 0 header
  | S j =>
      let w := workingDigest H header j in
      H (byte_at w (i mod 64) mod 11) w
  end.

(** The iteration count of the leaf hash. *)
Definition iterations (H : Z -> list byte -> list byte) (header : list byte) : Z :=
  2 + byte_at (H 0 header) 63 mod 5.

(** The leaf hash of the specification: rounds [0, ..., n - 1], truncated to
    32 bytes. *)
Definition leafHash (H : Z -> list byte -> list byte) (header : list byte) : list byte :=
  firstn 32 (workingDigest H header (Z.to_nat (iterations H header - 1))).

(** The eleven primitives in the order of their indices 0, ..., 10, written
    out as a table of its own: blake512, bmw512, groestl512, skein512, jh512,
    keccak512, luffa512, cubehash512, shavite512, simd512, echo512. *)
Definition sph_table (P : primitives) : list (list byte -> list byte) :=
  [ sph_blake512 P; sph_bmw512 P; sph_groestl512 P; sph_skein512 P;
    sph_jh512 P; sph_keccak512 P; sph_luffa512 P; sph_cubehash512 P;
    sph_shavite512 P; sph_simd512 P; sph_echo512 P ].

(** The primitive of index [k]: entry [k] of the table. *)
Definition primitive (P : primitives) (k : Z) : list byte -> list byte :=
  nth (Z.to_nat k) (sph_table P) (fun m => m).

(** The primitive of index [k] in this program: the [case k] of the [switch]. *)
Definition H_of (P : primitives) (k : Z) : list byte -> list byte :=
  match x11kv_case P k with
  | Some f => f
  | None => fun m => m
  end.

(** What every header hashed below [root] satisfies, [bound] being the
    largest distance of its nonce from the nonce of [root]. *)
Definition tree_header (root : list byte) (bound : Z) (h' : list byte) : Prop :=
  length h' = 80%nat
  /\ firstn 76 h' = firstn 76 root
  /\ 0 <= (le_uint32_at h' 76 - le_uint32_at root 76) mod 2 ^ 32 <= bound.

(** ** The external hash computations of a run *)

(** One [init]/[update]/[close] sequence: the [case] of the sph function
    (0 for the blake512 of iteration 0) or SHA-256, and the message read. *)
Inductive hash_call : Type :=
| sph_call (k : Z) (msg : list byte)
| sha256_call (msg : list byte).

(** [sha256_double_hash] with its two SHA-256 computations. *)
Definition sha256_double_hash_calls (P : primitives) (input : list byte) (len : nat)
  : list byte * list hash_call :=
  let temp := SHA256 P (firstn len input) in
  (SHA256 P (firstn 32 temp),
   [sha256_call (firstn len input); sha256_call (firstn 32 temp)]).

(** The loop body of [x11kv] on [hashA] and the calls made so far. *)
Definition x11kv_round_calls (P : primitives) (st : list byte * list hash_call) (i : Z)
  : list byte * list hash_call :=
  let hashA := fst st in
  let k := byte_at hashA (Z.to_nat (i mod 64)) mod HASHX11KV_NUMBER_ALGOS in
  match x11kv_case P k with
  | Some f => (f (firstn 64 hashA), snd st ++ [sph_call k (firstn 64 hashA)])
  | None => st
  end.

(** [x11kv] with the hash computations it makes, in order. *)
Definition x11kv_calls (P : primitives) (input : list byte)
  : option (list byte * list hash_call) :=
  header <- read input 0 80 ;;
  let hashA := sph_blake512 P header in
  let n := HASHX11KV_MIN_NUMBER_ITERATIONS
           + byte_at hashA 63
             mod (HASHX11KV_MAX_NUMBER_ITERATIONS - HASHX11KV_MIN_NUMBER_ITERATIONS + 1) in
  let st := fold_left (x11kv_round_calls P) (map Z.of_nat (seq 1 (Z.to_nat (n - 1))))
                      (hashA, [sph_call 0 header]) in
  Some (memcpy (fst st) 32, snd st).

(** [x11kvshash] with the hash computations it makes, in order: those of
    [x11kv], of the left child, of the right child, then the two of
    [sha256_double_hash]. *)
Fixpoint x11kvshash_calls_n (P : primitives) (d : nat) (input : list byte) (level : Z)
  : option (list byte * list hash_call) :=
  r <- x11kv_calls P input ;;
  let hash := fst r in
  if level =? HASHX11KVS_MIN_LEVEL then Some (memcpy hash 32, snd r)
  else
    let nonce := le32dec (skipn 76 input) in
    let nextheader1 := nextheader input (nextnonce nonce hash 24) in
    let nextheader2 := nextheader input (nextnonce nonce hash 28) in
    match d with
    | O => None
    | S d' =>
        r1 <- x11kvshash_calls_n P d' nextheader1 (u32 (level - 1)) ;;
        r2 <- x11kvshash_calls_n P d' nextheader2 (u32 (level - 1)) ;;
        let hashConcated := memcpy hash 32 ++ memcpy (fst r1) 32 ++ memcpy (fst r2) 32 in
        let out := sha256_double_hash_calls P hashConcated 96 in
        Some (fst out, snd r ++ snd r1 ++ snd r2 ++ snd out)
    end.

Definition x11kvshash_calls (P : primitives) (input : list byte) (level : Z)
  : option (list byte * list hash_call) :=
  x11kvshash_calls_n P (depth level) input level.

Definition is_sph (c : hash_call) : bool :=
  match c with sph_call _ _ => true | sha256_call _ => false end.

Definition is_sha256 (c : hash_call) : bool :=
  match c with sph_call _ _ => false | sha256_call _ => true end.

(** The number of calls of one kind. *)
Definition calls_of (kind : hash_call -> bool) (calls : list hash_call) : Z :=
  Z.of_nat (length (filter kind calls)).

(** The message sizes of the program: 80 bytes for the blake512 of the
    header, 64 for an sph function in the loop, 96 and 32 for SHA-256. *)
Definition well_sized (c : hash_call) : Prop :=
  match c with
  | sph_call k msg =>
      0 <= k <= 10 /\ (length msg = 64%nat \/ (k = 0 /\ length msg = 80%nat))
  | sha256_call msg => length msg = 96%nat \/ length msg = 32%nat
  end.

(** What the loop adds to the calls: sph computations on 64 bytes. *)
Definition loop_call (c : hash_call) : Prop :=
  is_sph c = true /\ is_sha256 c = false
  /\ exists k msg, c = sph_call k msg /\ 0 <= k <= 10 /\ length msg = 64%nat.

(** ** Sample inputs *)

(** Primitives whose digests are all zero bytes. *)
Definition zero_primitives : primitives :=
  let z64 := fun _ : list byte => repeat x00 64 in {|
  sph_blake512 := z64; sph_bmw512 := z64; sph_groestl512 := z64; sph_jh512 := z64;
  sph_keccak512 := z64; sph_skein512 := z64; sph_luffa512 := z64;
  sph_cubehash512 := z64; sph_shavite512 := z64; sph_simd512 := z64;
  sph_echo512 := z64;
  SHA256 := fun _ => repeat x00 32
|}.

(** The header of 80 zero bytes. *)
Definition zero_header : list byte := repeat x00 80.

(** A header with bytes 0, 1, ..., 79. *)
Definition count_header : list byte := map (fun j => byte_of_Z (Z.of_nat j)) (seq 0 80).

(** ** Bytes and little-endian words *)

Lemma Z_of_byte_range (b : byte) : 0 <= Z_of_byte b < 256.
Proof.
  unfold Z_of_byte. pose proof (Byte.to_N_bounded b). lia.
Qed.

Lemma byte_at_range (p : list byte) (i : nat) : 0 <= byte_at p i < 256.
Proof. apply Z_of_byte_range. Qed.

Lemma Z_of_byte_of_Z (z : Z) : Z_of_byte (byte_of_Z z) = z mod 256.
Proof.
  unfold Z_of_byte, byte_of_Z.
  pose proof (Z.mod_pos_bound z 256 ltac:(lia)) as Hz.
  destruct (Byte.of_N (Z.to_N (z mod 256))) as [b|] eqn:E.
  - apply Byte.to_of_N in E. rewrite E. lia.
  - apply Byte.of_N_None_iff in E. lia.
Qed.

Lemma byte_of_Z_of_byte (b : byte) : byte_of_Z (Z_of_byte b) = b.
Proof.
  unfold byte_of_Z. pose proof (Z_of_byte_range b) as Hb.
  rewrite Z.mod_small by lia. unfold Z_of_byte.
  rewrite N2Z.id, Byte.of_to_N. reflexivity.
Qed.

Lemma byte_at_skipn (p : list byte) (k i : nat) :
  byte_at (skipn k p) i = byte_at p (k + i).
Proof. unfold byte_at. rewrite nth_skipn. reflexivity. Qed.

Lemma lor_shiftl_add (a b n : Z) :
  0 <= n -> 0 <= a < 2 ^ n -> Z.lor a (Z.shiftl b n) = a + b * 2 ^ n.
Proof.
  intros Hn Ha.
  rewrite <- Z.shiftl_mul_pow2 by assumption.
  rewrite <- Z.add_lor_land.
  assert (Z.land a (Z.shiftl b n) = 0) as ->; [| lia].
  apply Z.bits_inj'. intros i Hi.
  rewrite Z.land_spec, Z.bits_0.
  destruct (Z.lt_ge_cases i n) as [Hlt | Hge].
  - rewrite (Z.shiftl_spec_low b n i Hlt). apply andb_false_r.
  - assert (Z.testbit a i = false) as ->; [| reflexivity].
    destruct (Z.eq_dec a 0) as [-> | Hne]; [apply Z.bits_0 |].
    apply Z.bits_above_log2; [lia |].
    apply Z.log2_lt_pow2; [lia |].
    apply Z.lt_le_trans with (2 ^ n); [lia |].
    apply Z.pow_le_mono_r; lia.
Qed.

(** [le32dec] reads the little-endian integer at the start of its argument. *)
Lemma le32dec_le_uint32 (p : list byte) : le32dec p = le_uint32_at p 0.
Proof.
  unfold le32dec, le_uint32_at. simpl Nat.add.
  pose proof (byte_at_range p 0). pose proof (byte_at_range p 1).
  pose proof (byte_at_range p 2). pose proof (byte_at_range p 3).
  rewrite (lor_shiftl_add (byte_at p 0) (byte_at p 1) 8) by lia.
  rewrite (lor_shiftl_add _ (byte_at p 2) 16) by lia.
  rewrite (lor_shiftl_add _ (byte_at p 3) 24) by lia.
  lia.
Qed.

Lemma le32dec_skipn (p : list byte) (k : nat) :
  le32dec (skipn k p) = le_uint32_at p k.
Proof.
  rewrite le32dec_le_uint32. unfold le_uint32_at.
  rewrite !byte_at_skipn. rewrite Nat.add_0_r. reflexivity.
Qed.

Lemma le_uint32_at_range (p : list byte) (k : nat) : 0 <= le_uint32_at p k < 2 ^ 32.
Proof.
  unfold le_uint32_at.
  pose proof (byte_at_range p k). pose proof (byte_at_range p (k + 1)).
  pose proof (byte_at_range p (k + 2)). pose proof (byte_at_range p (k + 3)).
  lia.
Qed.

Lemma le32enc_le_bytes (x : Z) : le32enc x = le_bytes x.
Proof.
  unfold le32enc, le_bytes. cbn [map].
  change 255 with (Z.ones 8).
  rewrite !Z.land_ones by lia.
  rewrite !Z.shiftr_div_pow2 by lia.
  change (2 ^ 8) with 256. change (256 ^ 0) with 1. rewrite Z.div_1_r.
  reflexivity.
Qed.

Lemma length_le32enc (x : Z) : length (le32enc x) = 4%nat.
Proof. reflexivity. Qed.

(** Decoding what [le32enc] wrote gives back the value as a [uint32_t]. *)
Lemma le32dec_le32enc (x : Z) : le32dec (le32enc x) = u32 x.
Proof.
  rewrite le32dec_le_uint32, le32enc_le_bytes.
  unfold le_uint32_at, le_bytes, byte_at, u32. cbn [map nth Nat.add].
  rewrite !Z_of_byte_of_Z, !Z.mod_mod by lia.
  change (256 ^ 0) with 1. rewrite Z.div_1_r.
  change (256 ^ 1) with 256. change (256 ^ 2) with 65536.
  change (256 ^ 3) with 16777216. change (2 ^ 32) with 4294967296.
  pose proof (Z.div_mod x 256 ltac:(lia)).
  pose proof (Z.div_mod (x / 256) 256 ltac:(lia)).
  pose proof (Z.div_mod (x / 256 / 256) 256 ltac:(lia)).
  pose proof (Z.div_mod x 4294967296 ltac:(lia)).
  change 65536 with (256 * 256). change 16777216 with (256 * 256 * 256).
  rewrite <- !Z.div_div by lia.
  pose proof (Z.mod_pos_bound x 256 ltac:(lia)).
  pose proof (Z.mod_pos_bound (x / 256) 256 ltac:(lia)).
  pose proof (Z.mod_pos_bound (x / 256 / 256) 256 ltac:(lia)).
  pose proof (Z.mod_pos_bound (x / 256 / 256 / 256) 256 ltac:(lia)).
  pose proof (Z.div_mod (x / 256 / 256 / 256) 256 ltac:(lia)).
  apply Z.mod_unique with (q := x / 256 / 256 / 256 / 256); lia.
Qed.

(** ** The leaf hash [x11kv] *)

Lemma read_inside (buf : list byte) (off n : nat) :
  (off + n <= length buf)%nat -> read buf off n = Some (firstn n (skipn off buf)).
Proof.
  intros Hle. unfold read.
  destruct (Nat.leb_spec (off + n) (length buf)); [reflexivity | lia].
Qed.

Lemma read_outside (buf : list byte) (off n : nat) :
  (length buf < off + n)%nat -> read buf off n = None.
Proof.
  intros Hlt. unfold read.
  destruct (Nat.leb_spec (off + n) (length buf)); [lia | reflexivity].
Qed.

Lemma to_nat_mod64 (i : nat) : Z.to_nat (Z.of_nat i mod 64) = (i mod 64)%nat.
Proof.
  change 64 with (Z.of_nat 64). rewrite <- Nat2Z.inj_mod. apply Nat2Z.id.
Qed.

Section Leaf.

Variable P : primitives.

Lemma x11kv_case_defined (k : Z) :
  0 <= k < HASHX11KV_NUMBER_ALGOS -> exists f, x11kv_case P k = Some f.
Proof.
  unfold HASHX11KV_NUMBER_ALGOS. intros Hk.
  assert (k = 0 \/ k = 1 \/ k = 2 \/ k = 3 \/ k = 4 \/ k = 5 \/ k = 6
          \/ k = 7 \/ k = 8 \/ k = 9 \/ k = 10) as Hcases by lia.
  repeat (destruct Hcases as [-> | Hcases]; [eexists; reflexivity |]).
  subst k. eexists; reflexivity.
Qed.

(** Inside the loop the selector always has a [case]. *)
Lemma x11kv_round_H_of (hashA : list byte) (i : Z) :
  x11kv_round P hashA i
  = H_of P (byte_at hashA (Z.to_nat (i mod 64)) mod 11) (firstn 64 hashA).
Proof.
  unfold x11kv_round, H_of, HASHX11KV_NUMBER_ALGOS.
  set (k := byte_at hashA (Z.to_nat (i mod 64)) mod 11).
  destruct (x11kv_case_defined k) as [f Hf].
  - subst k. unfold HASHX11KV_NUMBER_ALGOS. apply Z.mod_pos_bound. lia.
  - rewrite Hf. reflexivity.
Qed.

Hypothesis sizes : digest_sizes P.

Lemma x11kv_case_length (k : Z) (f : list byte -> list byte) :
  x11kv_case P k = Some f -> forall m, length (f m) = 64%nat.
Proof.
  destruct sizes as [Hsph _].
  repeat match type of Hsph with
         | Forall _ (_ :: _) =>
             let H := fresh "Hf" in
             let H' := fresh "Hs" in
             inversion Hsph as [| ? ? H H']; subst; clear Hsph; rename H' into Hsph
         end.
  intros Hk.
  destruct k as [| p | p]; try discriminate;
    repeat (destruct p as [p | p |]; try discriminate);
    injection Hk as <-; assumption.
Qed.

Lemma H_of_length (k : Z) (m : list byte) :
  0 <= k < 11 -> length (H_of P k m) = 64%nat.
Proof.
  intros Hk. unfold H_of.
  destruct (x11kv_case_defined k Hk) as [f Hf]. rewrite Hf.
  apply (x11kv_case_length k f Hf).
Qed.

Lemma workingDigest_length (header : list byte) (i : nat) :
  length (workingDigest (H_of P) header i) = 64%nat.
Proof.
  destruct i as [| j]; cbn [workingDigest].
  - apply H_of_length. lia.
  - apply H_of_length. apply Z.mod_pos_bound. lia.
Qed.

(** The loop of [x11kv] after [m] rounds holds the working digest of round [m]. *)
Lemma x11kv_rounds_workingDigest (header : list byte) (m : nat) :
  fold_left (x11kv_round P) (map Z.of_nat (seq 1 m)) (sph_blake512 P header)
  = workingDigest (H_of P) header m.
Proof.
  induction m as [| m IH].
  - reflexivity.
  - rewrite seq_S, map_app, fold_left_app, IH. cbn [map fold_left Nat.add].
    rewrite x11kv_round_H_of, to_nat_mod64.
    rewrite firstn_all2 by (rewrite workingDigest_length; lia).
    reflexivity.
Qed.

Lemma iterations_range (header : list byte) :
  2 <= iterations (H_of P) header <= 6.
Proof.
  unfold iterations.
  pose proof (Z.mod_pos_bound (byte_at (H_of P 0 header) 63) 5 ltac:(lia)). lia.
Qed.

Lemma leafHash_length (header : list byte) :
  length (leafHash (H_of P) header) = 32%nat.
Proof.
  unfold leafHash. rewrite length_firstn, workingDigest_length. reflexivity.
Qed.

(** [x11kv] on an object of at least 80 bytes is the leaf hash of its first
    80 bytes. *)
Lemma x11kv_inside (input : list byte) :
  (80 <= length input)%nat ->
  x11kv P input = Some (leafHash (H_of P) (firstn 80 input)).
Proof.
  intros Hlen. unfold x11kv.
  rewrite read_inside by (simpl; lia). cbn [skipn].
  unfold memcpy, leafHash, iterations.
  unfold HASHX11KV_MIN_NUMBER_ITERATIONS, HASHX11KV_MAX_NUMBER_ITERATIONS.
  change (6 - 2 + 1) with 5.
  rewrite x11kv_rounds_workingDigest. reflexivity.
Qed.

End Leaf.

Lemma x11kv_outside (P : primitives) (input : list byte) :
  (length input < 80)%nat -> x11kv P input = None.
Proof.
  intros Hlen. unfold x11kv. rewrite read_outside by (simpl; lia). reflexivity.
Qed.

(** [x11kv] looks at the first 80 bytes of its input only. *)
Lemma x11kv_firstn (P : primitives) (input : list byte) :
  x11kv P (firstn 80 input) = x11kv P input.
Proof.
  unfold x11kv, read. cbn [Nat.add skipn].
  rewrite length_firstn, firstn_firstn.
  destruct (Nat.leb_spec 80 (length input)) as [Hle | Hlt].
  - rewrite Nat.min_l by lia. rewrite Nat.min_id.
    destruct (Nat.leb_spec 80 80); [reflexivity | lia].
  - rewrite (Nat.min_r 80) by lia. rewrite Nat.min_l by lia.
    destruct (Nat.leb_spec 80 (length input)); [lia | reflexivity].
Qed.

(** ** The tree hash [x11kvshash] *)

Lemma x11kvshash_n_O (P : primitives) (input : list byte) (level : Z) :
  x11kvshash_n P O input level = x11kvshash_body P (fun _ _ => None) input level.
Proof.
  unfold x11kvshash_body. cbn [x11kvshash_n].
  destruct (x11kv P input); [| reflexivity].
  destruct (level =? HASHX11KVS_MIN_LEVEL); reflexivity.
Qed.

Lemma x11kvshash_n_S (P : primitives) (d : nat) (input : list byte) (level : Z) :
  x11kvshash_n P (S d) input level
  = x11kvshash_body P (x11kvshash_n P d) input level.
Proof. reflexivity. Qed.

Lemma x11kvshash_body_ext (P : primitives)
  (rec rec' : list byte -> Z -> option (list byte)) (input : list byte) (level : Z) :
  (forall input', rec input' (u32 (level - 1)) = rec' input' (u32 (level - 1))) ->
  x11kvshash_body P rec input level = x11kvshash_body P rec' input level.
Proof.
  intros Hrec. unfold x11kvshash_body.
  destruct (x11kv P input); [| reflexivity].
  destruct (level =? HASHX11KVS_MIN_LEVEL); [reflexivity |].
  cbv zeta. rewrite !Hrec. reflexivity.
Qed.

Lemma u32_range (z : Z) : 0 <= u32 z < 2 ^ 32.
Proof. unfold u32. apply Z.mod_pos_bound. lia. Qed.

Lemma u32_small (z : Z) : 0 <= z < 2 ^ 32 -> u32 z = z.
Proof. intros Hz. unfold u32. apply Z.mod_small. assumption. Qed.

Lemma depth_min : depth HASHX11KVS_MIN_LEVEL = O.
Proof. reflexivity. Qed.

(** Above the terminal level one descent leads to [level - 1]; from level 0
    the counter wraps to [2 ^ 32 - 1]. *)
Lemma depth_descend (level : Z) :
  0 <= level < 2 ^ 32 -> level <> HASHX11KVS_MIN_LEVEL ->
  depth level = S (depth (u32 (level - 1))).
Proof.
  unfold depth, HASHX11KVS_MIN_LEVEL, u32. intros Hl Hne.
  rewrite <- Z2Nat.inj_succ by (apply Z.mod_pos_bound; lia).
  f_equal.
  destruct (Z.eq_dec level 0) as [-> | Hz].
  - reflexivity.
  - rewrite (Z.mod_small (level - 1)) by lia.
    rewrite Z.mod_small by lia. lia.
Qed.

Lemma depth_of_level (level : Z) :
  1 <= level < 2 ^ 32 -> depth level = Z.to_nat (level - 1).
Proof.
  intros Hl. unfold depth, HASHX11KVS_MIN_LEVEL, u32.
  rewrite Z.mod_small by lia. reflexivity.
Qed.

(** More descents than [depth level] are never used. *)
Lemma x11kvshash_n_depth (P : primitives) (d : nat) :
  forall (input : list byte) (level : Z),
    0 <= level < 2 ^ 32 -> (depth level <= d)%nat ->
    x11kvshash_n P d input level = x11kvshash_n P (depth level) input level.
Proof.
  induction d as [| d IH]; intros input level Hl Hd.
  - replace (depth level) with O by lia. reflexivity.
  - destruct (Z.eq_dec level HASHX11KVS_MIN_LEVEL) as [-> | Hne].
    + rewrite depth_min, x11kvshash_n_S, x11kvshash_n_O. reflexivity.
    + rewrite (depth_descend level Hl Hne) in *.
      rewrite !x11kvshash_n_S. apply x11kvshash_body_ext. intros input'.
      apply IH; [apply u32_range | lia].
Qed.

(** The recursion equation of [x11kvshash], as the source has it. *)
Lemma x11kvshash_eq (P : primitives) (input : list byte) (level : Z) :
  0 <= level < 2 ^ 32 ->
  x11kvshash P input level = x11kvshash_body P (x11kvshash P) input level.
Proof.
  intros Hl. unfold x11kvshash at 1.
  destruct (Z.eq_dec level HASHX11KVS_MIN_LEVEL) as [-> | Hne].
  - rewrite depth_min, x11kvshash_n_O. reflexivity.
  - rewrite (depth_descend level Hl Hne), x11kvshash_n_S. reflexivity.
Qed.

Lemma length_nextheader (input : list byte) (nonce' : Z) :
  (76 <= length input)%nat -> length (nextheader input nonce') = 80%nat.
Proof.
  intros Hlen. unfold nextheader, memcpy.
  rewrite length_firstn, length_app, length_firstn, length_le32enc. lia.
Qed.

Lemma nextheader_app (input : list byte) (nonce' : Z) :
  (76 <= length input)%nat -> nextheader input nonce' = firstn 76 input ++ le32enc nonce'.
Proof.
  intros Hlen. unfold nextheader, memcpy. apply firstn_all2.
  rewrite length_app, length_firstn, length_le32enc. lia.
Qed.

Lemma nextheader_prefix (input : list byte) (nonce' : Z) :
  (76 <= length input)%nat -> firstn 76 (nextheader input nonce') = firstn 76 input.
Proof.
  intros Hlen. rewrite nextheader_app by assumption.
  rewrite firstn_app, length_firstn, Nat.min_l by assumption.
  rewrite firstn_firstn, Nat.min_id, Nat.sub_diag. cbn [firstn]. apply app_nil_r.
Qed.

Lemma nextheader_nonce (input : list byte) (nonce' : Z) :
  (76 <= length input)%nat -> skipn 76 (nextheader input nonce') = le32enc nonce'.
Proof.
  intros Hlen. rewrite nextheader_app by assumption.
  rewrite skipn_app, length_firstn, Nat.min_l by assumption.
  rewrite skipn_all2 by (rewrite length_firstn; lia).
  rewrite Nat.sub_diag. reflexivity.
Qed.

Lemma nextheader_firstn (input : list byte) (nonce' : Z) :
  nextheader (firstn 80 input) nonce' = nextheader input nonce'.
Proof.
  unfold nextheader, memcpy. rewrite firstn_firstn. reflexivity.
Qed.

Lemma byte_at_firstn (p : list byte) (n i : nat) :
  (i < n)%nat -> byte_at (firstn n p) i = byte_at p i.
Proof.
  intros Hi. unfold byte_at. rewrite nth_firstn.
  destruct (Nat.ltb_spec i n); [reflexivity | lia].
Qed.

Lemma nonce_firstn (input : list byte) :
  le32dec (skipn 76 (firstn 80 input)) = le32dec (skipn 76 input).
Proof.
  rewrite !le32dec_skipn. unfold le_uint32_at.
  rewrite !byte_at_firstn by lia. reflexivity.
Qed.

(** [x11kvshash] looks at the first 80 bytes of its input only. *)
Lemma x11kvshash_n_firstn (P : primitives) (d : nat) (input : list byte) (level : Z) :
  x11kvshash_n P d (firstn 80 input) level = x11kvshash_n P d input level.
Proof.
  destruct d as [| d].
  - rewrite !x11kvshash_n_O. unfold x11kvshash_body.
    rewrite x11kv_firstn. reflexivity.
  - rewrite !x11kvshash_n_S. unfold x11kvshash_body.
    rewrite x11kv_firstn.
    destruct (x11kv P input) as [hash |]; [| reflexivity].
    destruct (level =? HASHX11KVS_MIN_LEVEL); [reflexivity |].
    cbv zeta. rewrite nonce_firstn, !nextheader_firstn. reflexivity.
Qed.

Lemma sha256_double_hash_length (P : primitives) (input : list byte) (len : nat) :
  digest_sizes P -> length (sha256_double_hash P input len) = 32%nat.
Proof. intros [_ Hsha]. unfold sha256_double_hash. apply Hsha. Qed.

(** On a buffer of exactly [len] bytes the double hash is SHA-256 twice. *)
Lemma sha256_double_hash_twice (P : primitives) (input : list byte) :
  digest_sizes P ->
  sha256_double_hash P input (length input) = SHA256 P (SHA256 P input).
Proof.
  intros [_ Hsha]. unfold sha256_double_hash.
  rewrite (firstn_all2 (n := length input)) by lia.
  rewrite firstn_all2 by (rewrite Hsha; lia). reflexivity.
Qed.

Lemma memcpy_all (src : list byte) (n : nat) : length src = n -> memcpy src n = src.
Proof. intros <-. apply firstn_all. Qed.

Section Tree.

Variable P : primitives.
Hypothesis sizes : digest_sizes P.

(** Termination with a digest: on an object of at least 80 bytes every level
    of the [unsigned int] range yields 32 bytes. *)
Lemma x11kvshash_n_total (d : nat) :
  forall (input : list byte) (level : Z),
    0 <= level < 2 ^ 32 -> depth level = d -> (80 <= length input)%nat ->
    exists digest, x11kvshash_n P d input level = Some digest /\ length digest = 32%nat.
Proof.
  induction d as [| d IH]; intros input level Hl Hd Hlen.
  - rewrite x11kvshash_n_O. unfold x11kvshash_body.
    rewrite (x11kv_inside P sizes input Hlen).
    destruct (Z.eqb_spec level HASHX11KVS_MIN_LEVEL) as [-> | Hne].
    + eexists. split; [reflexivity |].
      rewrite memcpy_all; apply leafHash_length; assumption.
    + rewrite (depth_descend level Hl Hne) in Hd. discriminate.
  - rewrite x11kvshash_n_S. unfold x11kvshash_body.
    rewrite (x11kv_inside P sizes input Hlen).
    destruct (Z.eqb_spec level HASHX11KVS_MIN_LEVEL) as [-> | Hne].
    + rewrite depth_min in Hd. discriminate.
    + rewrite (depth_descend level Hl Hne) in Hd. injection Hd as Hd.
      cbv zeta.
      set (hash := leafHash (H_of P) (firstn 80 input)).
      set (nonce := le32dec (skipn 76 input)).
      destruct (IH (nextheader input (nextnonce nonce hash 24)) (u32 (level - 1)))
        as (hash1 & -> & _);
        [apply u32_range | assumption | rewrite length_nextheader; lia |].
      destruct (IH (nextheader input (nextnonce nonce hash 28)) (u32 (level - 1)))
        as (hash2 & -> & _);
        [apply u32_range | assumption | rewrite length_nextheader; lia |].
      eexists. split; [reflexivity |].
      apply sha256_double_hash_length. assumption.
Qed.

Lemma x11kvshash_total (input : list byte) (level : Z) :
  0 <= level < 2 ^ 32 -> (80 <= length input)%nat ->
  exists digest, x11kvshash P input level = Some digest /\ length digest = 32%nat.
Proof.
  intros Hl Hlen. apply x11kvshash_n_total; [assumption | reflexivity | assumption].
Qed.

(** An internal node: the digest of the node itself, the digests of the two
    children, and the double SHA-256 of their concatenation. *)
Lemma x11kvshash_node (input : list byte) (level : Z) :
  0 <= level < 2 ^ 32 -> level <> HASHX11KVS_MIN_LEVEL -> (80 <= length input)%nat ->
  exists hash hash1 hash2,
    x11kv P input = Some hash /\ length hash = 32%nat
    /\ x11kvshash P (nextheader input (nextnonce (le32dec (skipn 76 input)) hash 24))
         (u32 (level - 1)) = Some hash1 /\ length hash1 = 32%nat
    /\ x11kvshash P (nextheader input (nextnonce (le32dec (skipn 76 input)) hash 28))
         (u32 (level - 1)) = Some hash2 /\ length hash2 = 32%nat
    /\ x11kvshash P input level = Some (SHA256 P (SHA256 P (hash ++ hash1 ++ hash2))).
Proof.
  intros Hl Hne Hlen.
  set (hash := leafHash (H_of P) (firstn 80 input)).
  assert (length hash = 32%nat) as Hh by (apply leafHash_length; assumption).
  set (nonce := le32dec (skipn 76 input)).
  destruct (x11kvshash_total (nextheader input (nextnonce nonce hash 24)) (u32 (level - 1)))
    as (hash1 & E1 & H1); [apply u32_range | rewrite length_nextheader; lia |].
  destruct (x11kvshash_total (nextheader input (nextnonce nonce hash 28)) (u32 (level - 1)))
    as (hash2 & E2 & H2); [apply u32_range | rewrite length_nextheader; lia |].
  exists hash, hash1, hash2.
  repeat split; try assumption; [apply x11kv_inside; assumption |].
  rewrite x11kvshash_eq by assumption. unfold x11kvshash_body.
  rewrite (x11kv_inside P sizes input Hlen).
  destruct (Z.eqb_spec level HASHX11KVS_MIN_LEVEL) as [-> | _]; [congruence |].
  cbv zeta. fold hash nonce. rewrite E1, E2.
  rewrite !memcpy_all by assumption.
  rewrite <- sha256_double_hash_twice by assumption.
  do 2 f_equal. rewrite !length_app, Hh, H1, H2. reflexivity.
Qed.

(** The call log carries the digest of the function itself. *)
Lemma x11kvshash_log_n_digest (d : nat) :
  forall (input : list byte) (level : Z),
    option_map fst (x11kvshash_log_n P d input level) = x11kvshash_n P d input level.
Proof.
  induction d as [| d IH]; intros input level.
  - cbn [x11kvshash_log_n x11kvshash_n].
    destruct (x11kv P input); [| reflexivity].
    destruct (level =? HASHX11KVS_MIN_LEVEL); reflexivity.
  - cbn [x11kvshash_log_n x11kvshash_n].
    destruct (x11kv P input) as [hash |]; [| reflexivity].
    destruct (level =? HASHX11KVS_MIN_LEVEL); [reflexivity |].
    cbv zeta. rewrite <- !IH.
    destruct (x11kvshash_log_n P d _ (u32 (level - 1))) as [[hash1 log1] |];
      [| reflexivity].
    destruct (x11kvshash_log_n P d _ (u32 (level - 1))) as [[hash2 log2] |];
      reflexivity.
Qed.

(** The number of [x11kv] calls below a node of level [level >= 1]. *)
Lemma x11kvshash_log_n_length (d : nat) :
  forall (input : list byte) (level : Z),
    1 <= level < 2 ^ 32 -> depth level = d -> (80 <= length input)%nat ->
    exists digest log,
      x11kvshash_log_n P d input level = Some (digest, log)
      /\ Z.of_nat (length log) = 2 ^ level - 1.
Proof.
  induction d as [| d IH]; intros input level Hl Hd Hlen.
  - cbn [x11kvshash_log_n]. rewrite (x11kv_inside P sizes input Hlen).
    destruct (Z.eqb_spec level HASHX11KVS_MIN_LEVEL) as [-> | Hne].
    + do 2 eexists. split; reflexivity.
    + rewrite (depth_descend level ltac:(lia) Hne) in Hd. discriminate.
  - cbn [x11kvshash_log_n]. rewrite (x11kv_inside P sizes input Hlen).
    destruct (Z.eqb_spec level HASHX11KVS_MIN_LEVEL) as [-> | Hne].
    + rewrite depth_min in Hd. discriminate.
    + rewrite (depth_descend level ltac:(lia) Hne) in Hd. injection Hd as Hd.
      unfold HASHX11KVS_MIN_LEVEL in Hne.
      assert (u32 (level - 1) = level - 1) as Hu by (apply u32_small; lia).
      cbv zeta.
      set (hash := leafHash (H_of P) (firstn 80 input)).
      set (nonce := le32dec (skipn 76 input)).
      destruct (IH (nextheader input (nextnonce nonce hash 24)) (u32 (level - 1)))
        as (hash1 & log1 & -> & Hlog1);
        [rewrite Hu; lia | assumption | rewrite length_nextheader; lia |].
      destruct (IH (nextheader input (nextnonce nonce hash 28)) (u32 (level - 1)))
        as (hash2 & log2 & -> & Hlog2);
        [rewrite Hu; lia | assumption | rewrite length_nextheader; lia |].
      do 2 eexists. split; [reflexivity |].
      cbn [snd length]. rewrite length_app, Hu in *.
      replace level with (Z.succ (level - 1)) at 1 by lia.
      rewrite Z.pow_succ_r by lia. lia.
Qed.

End Tree.

(** ** The sample primitives satisfy the interface *)

Lemma toy_digest_length (salt : Z) (len : nat) (m : list byte) :
  length (toy_digest salt len m) = len.
Proof. unfold toy_digest. rewrite length_map. apply length_seq. Qed.

Lemma toy_sizes : digest_sizes toy.
Proof.
  split.
  - repeat constructor; intros m; apply toy_digest_length.
  - intros m. apply toy_digest_length.
Qed.

Lemma zero_sizes : digest_sizes zero_primitives.
Proof.
  split.
  - repeat constructor; intros m; reflexivity.
  - intros m. reflexivity.
Qed.

Lemma length_count_header : length count_header = 80%nat.
Proof. reflexivity. Qed.

(** ** Sample runs *)

Example iterations_count_header : iterations (H_of toy) count_header = 4.
Proof. vm_compute. reflexivity. Qed.

Example selectors_count_header :
  map (fun i => byte_at (workingDigest (H_of toy) count_header i) (S i mod 64) mod 11)
      [0; 1; 2]%nat
  = [5; 0; 1].
Proof. vm_compute. reflexivity. Qed.

(** The nonces of the headers hashed below the zero header at level 3, in
    call order: the node, its left child and that child's children, its
    right child and that child's children. *)
Example log_nonces_level3 :
  option_map (fun r => map (fun h => le32dec (skipn 76 h)) (snd r))
             (x11kvshash_log toy zero_header 3)
  = Some [0; 64670; 112610; 102330; 29975; 37856; 60471].
Proof. vm_compute. reflexivity. Qed.

Example leaf_calls_level7 :
  option_map (fun r => length (snd r)) (x11kvshash_log toy count_header 7)
  = Some 127%nat.
Proof. vm_compute. reflexivity. Qed.

Example short_buffer : x11kvshash toy (repeat x01 79) 3 = None.
Proof. vm_compute. reflexivity. Qed.

(** ** The entry point and the terminal level *)

(** C1: for every 80-byte header the entry point [x11kvs_hash] returns what
    the recursive tree hash [x11kvshash] returns at level
    [HASHX11KVS_MAX_LEVEL = 7], and that result is a 32-byte digest; the
    function has no other result. *)
Theorem x11kvs_hash_level7 (P : primitives) (h : list byte) (len : Z) :
  digest_sizes P -> length h = 80%nat ->
  HASHX11KVS_MAX_LEVEL = 7
  /\ x11kvs_hash P h len = x11kvshash P h 7
  /\ exists digest, x11kvs_hash P h len = Some digest /\ length digest = 32%nat.
Proof.
  intros sizes Hlen. split; [reflexivity |]. split; [reflexivity |].
  unfold x11kvs_hash. apply x11kvshash_total; [assumption | | lia].
  unfold HASHX11KVS_MAX_LEVEL. lia.
Qed.

Lemma x11kvs_hash_level7_witness :
  digest_sizes toy /\ length count_header = 80%nat
  /\ x11kvs_hash toy count_header 80 = x11kvshash toy count_header 7
  /\ exists digest, x11kvs_hash toy count_header 80 = Some digest
                    /\ length digest = 32%nat.
Proof.
  split; [exact toy_sizes |]. split; [reflexivity |].
  apply (x11kvs_hash_level7 toy count_header 80 toy_sizes). reflexivity.
Defined.

(** C2: for every 80-byte header the tree hash at level 1 is the leaf hash:
    [x11kvshash h 1] returns the 32-byte digest of [x11kv h] as it is, after
    a single call of [x11kv], on [h] itself. *)
Theorem x11kvshash_terminal (P : primitives) (h : list byte) :
  digest_sizes P -> length h = 80%nat ->
  x11kvshash P h 1 = x11kv P h
  /\ x11kvshash P h 1 = Some (leafHash (H_of P) h)
  /\ length (leafHash (H_of P) h) = 32%nat
  /\ x11kvshash_log P h 1 = Some (leafHash (H_of P) h, [h]).
Proof.
  intros sizes Hlen.
  assert (x11kv P h = Some (leafHash (H_of P) h)) as Hleaf.
  { rewrite (x11kv_inside P sizes h) by lia.
    rewrite firstn_all2 by lia. reflexivity. }
  assert (length (leafHash (H_of P) h) = 32%nat) as Hl
    by (apply leafHash_length; assumption).
  assert (x11kvshash P h 1 = Some (leafHash (H_of P) h)) as Hone.
  { rewrite x11kvshash_eq by lia. unfold x11kvshash_body.
    rewrite Hleaf. cbn [Z.eqb HASHX11KVS_MIN_LEVEL Pos.eqb].
    rewrite memcpy_all by assumption. reflexivity. }
  repeat split; try assumption.
  - rewrite Hone, Hleaf. reflexivity.
  - unfold x11kvshash_log. change (depth 1) with O. cbn [x11kvshash_log_n].
    rewrite Hleaf. cbn [Z.eqb HASHX11KVS_MIN_LEVEL Pos.eqb].
    rewrite memcpy_all by assumption. reflexivity.
Qed.

Lemma x11kvshash_terminal_witness :
  digest_sizes toy /\ length count_header = 80%nat
  /\ x11kvshash toy count_header 1 = x11kv toy count_header.
Proof.
  split; [exact toy_sizes |]. split; [reflexivity |].
  apply (x11kvshash_terminal toy count_header toy_sizes). reflexivity.
Defined.

(** ** The leaf hash *)

(** The [switch] of [x11kv] runs the primitive the table has at the index. *)
Lemma H_of_primitive (P : primitives) (k : Z) :
  0 <= k < 11 -> H_of P k = primitive P k.
Proof.
  intros Hk.
  assert (k = 0 \/ k = 1 \/ k = 2 \/ k = 3 \/ k = 4 \/ k = 5 \/ k = 6
          \/ k = 7 \/ k = 8 \/ k = 9 \/ k = 10) as Hcases by lia.
  repeat (destruct Hcases as [-> | Hcases]; [reflexivity |]).
  subst k. reflexivity.
Qed.

Lemma workingDigest_primitive (P : primitives) (header : list byte) (i : nat) :
  workingDigest (H_of P) header i = workingDigest (primitive P) header i.
Proof.
  induction i as [| j IH]; [reflexivity |].
  cbn [workingDigest]. cbv zeta. rewrite IH.
  apply (f_equal (fun f => f _)). apply H_of_primitive.
  apply Z.mod_pos_bound. lia.
Qed.

Lemma leafHash_primitive (P : primitives) (header : list byte) :
  leafHash (H_of P) header = leafHash (primitive P) header.
Proof. unfold leafHash. rewrite workingDigest_primitive. reflexivity. Qed.

(** C3: for every 80-byte header, [x11kv] first runs primitive 0 (blake512)
    on the header, takes [n = 2 + (byte 63 of that digest) mod 5], which lies
    in [2, 6], then for [i = 1, ..., n - 1] replaces the 64-byte working
    digest by primitive [k] of it, [k] being the byte at offset [i mod 64] of
    the current digest modulo 11, and returns the first 32 bytes of the last
    working digest.  The primitives are those of the table [sph_table]:
    index 0 is blake512, 1 bmw512, 2 groestl512, 3 skein512, 4 jh512,
    5 keccak512, 6 luffa512, 7 cubehash512, 8 shavite512, 9 simd512 and
    10 echo512, and one loop round of the code on a 64-byte digest runs the
    primitive of the selected index. *)
Theorem x11kv_leafHash (P : primitives) (header : list byte) :
  digest_sizes P -> length header = 80%nat ->
  let H := primitive P in
  let n := iterations H header in
  map H [0; 1; 2; 3; 4; 5; 6; 7; 8; 9; 10]
  = [ sph_blake512 P; sph_bmw512 P; sph_groestl512 P; sph_skein512 P;
      sph_jh512 P; sph_keccak512 P; sph_luffa512 P; sph_cubehash512 P;
      sph_shavite512 P; sph_simd512 P; sph_echo512 P ]
  /\ (forall (hashA : list byte) (i : Z),
        length hashA = 64%nat ->
        x11kv_round P hashA i = H (byte_at hashA (Z.to_nat (i mod 64)) mod 11) hashA)
  /\ workingDigest H header 0 = sph_blake512 P header
  /\ n = 2 + byte_at (sph_blake512 P header) 63 mod 5
  /\ 2 <= n <= 6
  /\ (forall i, (1 <= i <= Z.to_nat (n - 1))%nat ->
        let w := workingDigest H header (i - 1) in
        length w = 64%nat
        /\ workingDigest H header i = H (byte_at w (i mod 64) mod 11) w
        /\ x11kv_round P w (Z.of_nat i) = workingDigest H header i)
  /\ x11kv P header = Some (firstn 32 (workingDigest H header (Z.to_nat (n - 1))))
  /\ x11kv P header = Some (leafHash H header)
  /\ length (leafHash H header) = 32%nat.
Proof.
  intros sizes Hlen H n.
  assert (x11kv P header = Some (leafHash H header)) as Hleaf.
  { rewrite (x11kv_inside P sizes header) by lia.
    rewrite firstn_all2 by lia. subst H. rewrite leafHash_primitive. reflexivity. }
  assert (forall (hashA : list byte) (i : Z),
             length hashA = 64%nat ->
             x11kv_round P hashA i
             = H (byte_at hashA (Z.to_nat (i mod 64)) mod 11) hashA) as Hround.
  { intros hashA i H64. rewrite x11kv_round_H_of.
    rewrite firstn_all2 by lia. subst H.
    apply (f_equal (fun f => f hashA)). apply H_of_primitive.
    apply Z.mod_pos_bound. lia. }
  assert (forall i, length (workingDigest H header i) = 64%nat) as Hw.
  { intros i. subst H. rewrite <- workingDigest_primitive.
    apply workingDigest_length. assumption. }
  assert (2 <= n <= 6) as Hn by (apply (iterations_range P header)).
  split; [reflexivity |]. split; [exact Hround |]. split; [reflexivity |].
  split; [reflexivity |]. split; [exact Hn |]. split.
  - intros i Hi w. split; [apply Hw |].
    destruct i as [| j]; [lia |].
    assert (workingDigest H header (S j) = H (byte_at w (S j mod 64) mod 11) w) as Hstep.
    { cbn [workingDigest]. subst w. replace (S j - 1)%nat with j by lia. reflexivity. }
    split; [exact Hstep |].
    rewrite Hround by apply Hw. rewrite to_nat_mod64. symmetry. exact Hstep.
  - split; [exact Hleaf |]. split; [exact Hleaf |].
    subst H. rewrite <- leafHash_primitive. apply leafHash_length. assumption.
Qed.

Lemma x11kv_leafHash_witness :
  digest_sizes toy /\ length count_header = 80%nat
  /\ 2 <= iterations (primitive toy) count_header <= 6
  /\ x11kv toy count_header = Some (leafHash (primitive toy) count_header).
Proof.
  split; [exact toy_sizes |]. split; [reflexivity |].
  pose proof (x11kv_leafHash toy count_header toy_sizes eq_refl) as H.
  cbv zeta in H. split; [apply H | apply H].
Defined.

(** ** Internal nodes *)

Lemma nextnonce_le_uint32 (input hash : list byte) (off : nat) :
  nextnonce (le32dec (skipn 76 input)) hash off
  = (le_uint32_at input 76 + le_uint32_at hash off mod 65535) mod 2 ^ 32.
Proof. unfold nextnonce, u32, HASHX11KVS_MAX_DRIFT. rewrite !le32dec_skipn. reflexivity. Qed.

Lemma nextheader_le_bytes (input : list byte) (nonce' : Z) :
  (76 <= length input)%nat -> nextheader input nonce' = firstn 76 input ++ le_bytes nonce'.
Proof. intros Hlen. rewrite nextheader_app by assumption. rewrite le32enc_le_bytes. reflexivity. Qed.

Lemma nextheader_read_back (input : list byte) (nonce' : Z) :
  (76 <= length input)%nat -> le_uint32_at (nextheader input nonce') 76 = u32 nonce'.
Proof.
  intros Hlen. rewrite <- le32dec_skipn, nextheader_nonce by assumption.
  apply le32dec_le32enc.
Qed.

(** The addition wraps at 2^32, and a drift word of 0xFFFF reduces to 0. *)
Example nextnonce_wraps :
  nextnonce 4294967295 (repeat x00 24 ++ [x05; x00; x00; x00]) 24 = 4.
Proof. reflexivity. Qed.

Example nextnonce_drift_ffff :
  nextnonce 7 (repeat x00 28 ++ [xff; xff; x00; x00]) 28 = 7.
Proof. reflexivity. Qed.

Example nextheader_count :
  skipn 72 (nextheader count_header 305419896)
  = [x48; x49; x4a; x4b; x78; x56; x34; x12].
Proof. reflexivity. Qed.

(** C4: at every internal node (level > 1) on an 80-byte header, with
    [nonce] the little-endian uint32 at header offset 76 and [driftA],
    [driftB] the little-endian uint32 at offsets 24 and 28 of the node's own
    digest, the children are hashed at level - 1 on the headers made of the
    parent's first 76 bytes followed by the little-endian bytes of
    [nonce + driftA mod 0xFFFF] and [nonce + driftB mod 0xFFFF], the sums
    taken modulo 2^32. *)
Theorem x11kvshash_child_nonces (P : primitives) (h : list byte) (level : Z) :
  digest_sizes P -> length h = 80%nat -> 1 < level < 2 ^ 32 ->
  exists selfDigest digestLeft digestRight,
    let nonce := le_uint32_at h 76 in
    let driftA := le_uint32_at selfDigest 24 in
    let driftB := le_uint32_at selfDigest 28 in
    let nonce1 := (nonce + driftA mod 65535) mod 2 ^ 32 in
    let nonce2 := (nonce + driftB mod 65535) mod 2 ^ 32 in
    let header1 := firstn 76 h ++ le_bytes nonce1 in
    let header2 := firstn 76 h ++ le_bytes nonce2 in
    x11kv P h = Some selfDigest
    /\ length header1 = 80%nat /\ length header2 = 80%nat
    /\ le_uint32_at header1 76 = nonce1 /\ le_uint32_at header2 76 = nonce2
    /\ x11kvshash P header1 (level - 1) = Some digestLeft
    /\ x11kvshash P header2 (level - 1) = Some digestRight
    /\ x11kvshash P h level
       = Some (sha256_double_hash P (selfDigest ++ digestLeft ++ digestRight) 96).
Proof.
  intros sizes Hlen Hl.
  destruct (x11kvshash_node P sizes h level) as
    (hash & hash1 & hash2 & Hleaf & Hh & E1 & H1 & E2 & H2 & Hnode);
    [lia | unfold HASHX11KVS_MIN_LEVEL; lia | lia |].
  rewrite u32_small in E1, E2 by lia.
  rewrite nextnonce_le_uint32, nextheader_le_bytes in E1, E2 by lia.
  exists hash, hash1, hash2. cbv zeta.
  repeat split; try assumption.
  - rewrite <- nextheader_le_bytes by lia. apply length_nextheader. lia.
  - rewrite <- nextheader_le_bytes by lia. apply length_nextheader. lia.
  - rewrite <- nextheader_le_bytes, nextheader_read_back by lia.
    apply u32_small. apply Z.mod_pos_bound. lia.
  - rewrite <- nextheader_le_bytes, nextheader_read_back by lia.
    apply u32_small. apply Z.mod_pos_bound. lia.
  - rewrite Hnode. f_equal.
    replace 96%nat with (length (hash ++ hash1 ++ hash2))
      by (rewrite !length_app, Hh, H1, H2; reflexivity).
    symmetry. apply sha256_double_hash_twice. assumption.
Qed.

Lemma x11kvshash_child_nonces_witness :
  digest_sizes toy /\ length count_header = 80%nat /\ 1 < 3 < 2 ^ 32
  /\ exists selfDigest digestLeft digestRight,
       x11kv toy count_header = Some selfDigest
       /\ x11kvshash toy count_header 3
          = Some (sha256_double_hash toy (selfDigest ++ digestLeft ++ digestRight) 96).
Proof.
  split; [exact toy_sizes |]. split; [reflexivity |]. split; [lia |].
  destruct (x11kvshash_child_nonces toy count_header 3 toy_sizes eq_refl ltac:(lia))
    as (selfDigest & digestLeft & digestRight & H).
  exists selfDigest, digestLeft, digestRight. cbv zeta in H.
  split; apply H.
Defined.

(** C5: for every 80-byte header and every level > 1, each of the two
    derived child nonces, as written in the child header handed to the
    recursive call, differs from the parent's nonce by less than 0xFFFF in
    unsigned 32-bit arithmetic. *)
Theorem nonce_drift_bound (P : primitives) (h : list byte) (level : Z) :
  digest_sizes P -> length h = 80%nat -> 1 < level < 2 ^ 32 ->
  exists selfDigest digestLeft digestRight,
    let nonce := le32dec (skipn 76 h) in
    let nextheader1 := nextheader h (nextnonce nonce selfDigest 24) in
    let nextheader2 := nextheader h (nextnonce nonce selfDigest 28) in
    x11kv P h = Some selfDigest
    /\ x11kvshash P nextheader1 (level - 1) = Some digestLeft
    /\ x11kvshash P nextheader2 (level - 1) = Some digestRight
    /\ x11kvshash P h level
       = Some (sha256_double_hash P (selfDigest ++ digestLeft ++ digestRight) 96)
    /\ 0 <= (le32dec (skipn 76 nextheader1) - nonce) mod 2 ^ 32 < HASHX11KVS_MAX_DRIFT
    /\ 0 <= (le32dec (skipn 76 nextheader2) - nonce) mod 2 ^ 32 < HASHX11KVS_MAX_DRIFT
    /\ HASHX11KVS_MAX_DRIFT = 65535.
Proof.
  intros sizes Hlen Hl.
  destruct (x11kvshash_node P sizes h level) as
    (hash & hash1 & hash2 & Hleaf & Hh & E1 & H1 & E2 & H2 & Hnode);
    [lia | unfold HASHX11KVS_MIN_LEVEL; lia | lia |].
  rewrite u32_small in E1, E2 by lia.
  exists hash, hash1, hash2. cbv zeta.
  assert (forall off,
    0 <= (le32dec (skipn 76 (nextheader h (nextnonce (le32dec (skipn 76 h)) hash off)))
          - le32dec (skipn 76 h)) mod 2 ^ 32 < HASHX11KVS_MAX_DRIFT) as Hbound.
  { intros off. rewrite nextheader_nonce by lia. rewrite le32dec_le32enc.
    unfold nextnonce, u32. rewrite Z.mod_mod by lia.
    rewrite Zminus_mod_idemp_l.
    replace (le32dec (skipn 76 h) + le32dec (skipn off hash) mod HASHX11KVS_MAX_DRIFT
             - le32dec (skipn 76 h))
      with (le32dec (skipn off hash) mod HASHX11KVS_MAX_DRIFT) by lia.
    unfold HASHX11KVS_MAX_DRIFT.
    pose proof (Z.mod_pos_bound (le32dec (skipn off hash)) 65535 ltac:(lia)).
    rewrite Z.mod_small by lia. lia. }
  repeat split; try assumption; try apply Hbound.
  rewrite Hnode. f_equal.
  replace 96%nat with (length (hash ++ hash1 ++ hash2))
    by (rewrite !length_app, Hh, H1, H2; reflexivity).
  symmetry. apply sha256_double_hash_twice. assumption.
Qed.

Lemma nonce_drift_bound_witness :
  digest_sizes toy /\ length count_header = 80%nat /\ 1 < 2 < 2 ^ 32
  /\ exists selfDigest,
       let nonce := le32dec (skipn 76 count_header) in
       x11kv toy count_header = Some selfDigest
       /\ 0 <= (le32dec (skipn 76 (nextheader count_header (nextnonce nonce selfDigest 24)))
                - nonce) mod 2 ^ 32 < 65535
       /\ 0 <= (le32dec (skipn 76 (nextheader count_header (nextnonce nonce selfDigest 28)))
                - nonce) mod 2 ^ 32 < 65535.
Proof.
  split; [exact toy_sizes |]. split; [reflexivity |]. split; [lia |].
  destruct (nonce_drift_bound toy count_header 2 toy_sizes eq_refl ltac:(lia))
    as (selfDigest & digestLeft & digestRight & H).
  exists selfDigest. cbv zeta in H |- *.
  destruct H as (Hleaf & _ & _ & _ & HA & HB & _).
  split; [exact Hleaf |]. split; [exact HA | exact HB].
Defined.

(** C6: at every internal node (level > 1) on an 80-byte header the output
    is SHA-256 applied twice to the 96-byte concatenation of the node's own
    leaf digest, the digest of the left child and the digest of the right
    child, in that order. *)
Theorem x11kvshash_combine (P : primitives) (h : list byte) (level : Z) :
  digest_sizes P -> length h = 80%nat -> 1 < level < 2 ^ 32 ->
  exists selfDigest digestLeft digestRight,
    let nonce := le32dec (skipn 76 h) in
    let combined := selfDigest ++ digestLeft ++ digestRight in
    x11kv P h = Some selfDigest
    /\ x11kvshash P (nextheader h (nextnonce nonce selfDigest 24)) (level - 1)
       = Some digestLeft
    /\ x11kvshash P (nextheader h (nextnonce nonce selfDigest 28)) (level - 1)
       = Some digestRight
    /\ length selfDigest = 32%nat /\ length digestLeft = 32%nat
    /\ length digestRight = 32%nat /\ length combined = 96%nat
    /\ sha256_double_hash P combined 96 = SHA256 P (SHA256 P combined)
    /\ x11kvshash P h level = Some (SHA256 P (SHA256 P combined))
    /\ length (SHA256 P (SHA256 P combined)) = 32%nat.
Proof.
  intros sizes Hlen Hl.
  destruct (x11kvshash_node P sizes h level) as
    (hash & hash1 & hash2 & Hleaf & Hh & E1 & H1 & E2 & H2 & Hnode);
    [lia | unfold HASHX11KVS_MIN_LEVEL; lia | lia |].
  rewrite u32_small in E1, E2 by lia.
  exists hash, hash1, hash2. cbv zeta.
  assert (length (hash ++ hash1 ++ hash2) = 96%nat) as H96
    by (rewrite !length_app, Hh, H1, H2; reflexivity).
  repeat split; try assumption.
  - rewrite <- H96. apply sha256_double_hash_twice. assumption.
  - apply sizes.
Qed.

Lemma x11kvshash_combine_witness :
  digest_sizes toy /\ length count_header = 80%nat /\ 1 < 2 < 2 ^ 32
  /\ exists selfDigest digestLeft digestRight,
       x11kv toy count_header = Some selfDigest
       /\ x11kvshash toy count_header 2
          = Some (SHA256 toy (SHA256 toy (selfDigest ++ digestLeft ++ digestRight))).
Proof.
  split; [exact toy_sizes |]. split; [reflexivity |]. split; [lia |].
  destruct (x11kvshash_combine toy count_header 2 toy_sizes eq_refl ltac:(lia))
    as (selfDigest & digestLeft & digestRight & H).
  exists selfDigest, digestLeft, digestRight. cbv zeta in H.
  split; apply H.
Defined.

(** ** The size of the call tree *)

(** C7: for every 80-byte header and every level in [1, 7], the run of
    [x11kvshash h level] calls the leaf hash [x11kv] exactly 2^level - 1
    times; the entry point, at level 7, calls it 127 times. *)
Theorem x11kvshash_leaf_calls (P : primitives) (h : list byte) (level : Z) (len : Z) :
  digest_sizes P -> length h = 80%nat -> 1 <= level <= 7 ->
  (exists digest log,
     x11kvshash_log P h level = Some (digest, log)
     /\ x11kvshash P h level = Some digest
     /\ Z.of_nat (length log) = 2 ^ level - 1)
  /\ (exists digest log,
        x11kvshash_log P h HASHX11KVS_MAX_LEVEL = Some (digest, log)
        /\ x11kvs_hash P h len = Some digest
        /\ length log = 127%nat).
Proof.
  intros sizes Hlen Hl.
  assert (forall l, 1 <= l <= 7 ->
    exists digest log,
      x11kvshash_log P h l = Some (digest, log)
      /\ x11kvshash P h l = Some digest
      /\ Z.of_nat (length log) = 2 ^ l - 1) as Hcount.
  { intros l Hrange.
    destruct (x11kvshash_log_n_length P sizes (depth l) h l)
      as (digest & log & Hlog & Hn); [lia | reflexivity | lia |].
    exists digest, log. repeat split; try assumption.
    unfold x11kvshash. rewrite <- x11kvshash_log_n_digest by assumption.
    rewrite Hlog. reflexivity. }
  split; [apply Hcount; assumption |].
  destruct (Hcount HASHX11KVS_MAX_LEVEL) as (digest & log & Hlog & Hd & Hn);
    [unfold HASHX11KVS_MAX_LEVEL; lia |].
  exists digest, log. repeat split; try assumption.
  unfold HASHX11KVS_MAX_LEVEL in Hn. change (2 ^ 7 - 1) with 127 in Hn. lia.
Qed.

Lemma x11kvshash_leaf_calls_witness :
  digest_sizes toy /\ length count_header = 80%nat /\ 1 <= 3 <= 7
  /\ exists digest log,
       x11kvshash_log toy count_header 3 = Some (digest, log)
       /\ Z.of_nat (length log) = 2 ^ 3 - 1.
Proof.
  split; [exact toy_sizes |]. split; [reflexivity |]. split; [lia |].
  destruct (x11kvshash_leaf_calls toy count_header 3 80 toy_sizes eq_refl ltac:(lia))
    as ((digest & log & Hlog & _ & Hn) & _).
  exists digest, log. split; [exact Hlog | exact Hn].
Defined.

(** ** Inputs outside the contract *)

Lemma x11kvshash_firstn (P : primitives) (input : list byte) (level : Z) :
  x11kvshash P (firstn 80 input) level = x11kvshash P input level.
Proof. apply x11kvshash_n_firstn. Qed.

(** C8, as the specification states it, fails: with a 100-byte buffer and
    [len = 100], and with an 80-byte buffer and [len = 79], the entry point
    reports nothing and returns a digest (all zero for primitives whose
    digests are all zero). *)
Lemma x11kvs_hash_no_length_check :
  length (repeat x00 100) <> 80%nat
  /\ x11kvs_hash zero_primitives (repeat x00 100) 100 = Some (repeat x00 32)
  /\ x11kvs_hash zero_primitives zero_header 79 = Some (repeat x00 32).
Proof.
  split; [discriminate |]. split; vm_compute; reflexivity.
Qed.

(** C8, amended: the entry point has no length check and no error result.
    It never looks at [len]; on a buffer of at least 80 bytes it returns the
    32-byte digest of the level-7 tree hash of the first 80 bytes; on a
    shorter buffer the 80-byte read of the leaf hash runs past the end of
    the buffer, and no digest is defined. *)
Theorem x11kvs_hash_reads_80 (P : primitives) (input : list byte) (len : Z) :
  digest_sizes P ->
  ((80 <= length input)%nat ->
     exists digest,
       x11kvs_hash P input len = Some digest /\ length digest = 32%nat
       /\ x11kvshash P (firstn 80 input) 7 = Some digest)
  /\ ((length input < 80)%nat -> x11kvs_hash P input len = None).
Proof.
  intros sizes. split.
  - intros Hlen.
    destruct (x11kvshash_total P sizes input 7) as (digest & Hd & H32);
      [lia | assumption |].
    exists digest. repeat split; try assumption.
    rewrite x11kvshash_firstn. assumption.
  - intros Hlen. unfold x11kvs_hash. rewrite x11kvshash_eq
      by (unfold HASHX11KVS_MAX_LEVEL; lia).
    unfold x11kvshash_body. rewrite x11kv_outside by assumption. reflexivity.
Qed.

Lemma x11kvs_hash_reads_80_witness :
  digest_sizes toy
  /\ (80 <= length (count_header ++ count_header))%nat
  /\ (exists digest,
        x11kvs_hash toy (count_header ++ count_header) 160 = Some digest
        /\ length digest = 32%nat
        /\ x11kvshash toy (firstn 80 (count_header ++ count_header)) 7 = Some digest)
  /\ (length (repeat x00 79) < 80)%nat
  /\ x11kvs_hash toy (repeat x00 79) 79 = None.
Proof.
  split; [exact toy_sizes |].
  split; [simpl; lia |].
  split; [apply (x11kvs_hash_reads_80 toy (count_header ++ count_header) 160 toy_sizes);
          simpl; lia |].
  split; [simpl; lia |].
  apply (x11kvs_hash_reads_80 toy (repeat x00 79) 79 toy_sizes). simpl; lia.
Defined.

(** C9, as the specification states it, fails: called with level 8 on the
    zero header, [x11kvshash] reports nothing and returns a digest. *)
Lemma x11kvshash_level8_accepted :
  ~ (1 <= 8 <= 7)
  /\ x11kvshash zero_primitives zero_header 8 = Some (repeat x00 32).
Proof.
  split; [lia | vm_compute; reflexivity].
Qed.

(** C9, amended: [x11kvshash] has no guard on [level] and no error result.
    For every level in [1, 7] and every 80-byte header the recursion
    terminates with a 32-byte digest; level 8 is hashed like any other
    level, as a tree of 255 leaf-hash calls; at level 0 the counter wraps
    and the children are hashed at level 2^32 - 1. *)
Theorem x11kvshash_levels (P : primitives) (h : list byte) (level : Z) :
  digest_sizes P -> length h = 80%nat -> 1 <= level <= 7 ->
  (exists digest, x11kvshash P h level = Some digest /\ length digest = 32%nat)
  /\ (exists digest log,
        x11kvshash_log P h 8 = Some (digest, log)
        /\ x11kvshash P h 8 = Some digest
        /\ length digest = 32%nat /\ length log = 255%nat)
  /\ x11kvshash P h 0
     = (hash <- x11kv P h ;;
        let nonce := le32dec (skipn 76 h) in
        hash1 <- x11kvshash P (nextheader h (nextnonce nonce hash 24)) 4294967295 ;;
        hash2 <- x11kvshash P (nextheader h (nextnonce nonce hash 28)) 4294967295 ;;
        Some (sha256_double_hash P
                (memcpy hash 32 ++ memcpy hash1 32 ++ memcpy hash2 32) 96)).
Proof.
  intros sizes Hlen Hl. split; [| split].
  - apply x11kvshash_total; [assumption | lia | lia].
  - destruct (x11kvshash_log_n_length P sizes (depth 8) h 8)
      as (digest & log & Hlog & Hn); [lia | reflexivity | lia |].
    assert (x11kvshash P h 8 = Some digest) as Hd.
    { unfold x11kvshash. rewrite <- x11kvshash_log_n_digest. rewrite Hlog. reflexivity. }
    destruct (x11kvshash_total P sizes h 8) as (digest' & Hd' & H32); [lia | lia |].
    exists digest, log. repeat split; try assumption.
    + congruence.
    + change (2 ^ 8 - 1) with 255 in Hn. lia.
  - rewrite x11kvshash_eq by lia. unfold x11kvshash_body.
    destruct (x11kv P h); reflexivity.
Qed.

Lemma x11kvshash_levels_witness :
  digest_sizes toy /\ length count_header = 80%nat /\ 1 <= 4 <= 7
  /\ exists digest, x11kvshash toy count_header 4 = Some digest
                    /\ length digest = 32%nat.
Proof.
  split; [exact toy_sizes |]. split; [reflexivity |]. split; [lia |].
  apply (x11kvshash_levels toy count_header 4 toy_sizes eq_refl). lia.
Defined.

(** C10: the length argument of the entry point has no influence on the
    result: two runs on buffers that agree on their first 80 bytes return
    the same result whatever the two length values are; on a buffer of at
    least 80 bytes that result is a 32-byte digest. *)
Theorem x11kvs_hash_len_noninterference
  (P : primitives) (input input' : list byte) (len1 len2 : Z) :
  firstn 80 input = firstn 80 input' ->
  x11kvs_hash P input len1 = x11kvs_hash P input len2
  /\ x11kvs_hash P input len1 = x11kvs_hash P input' len2
  /\ (digest_sizes P -> (80 <= length input)%nat ->
      exists digest,
        length digest = 32%nat
        /\ x11kvs_hash P input len1 = Some digest
        /\ x11kvs_hash P input' len2 = Some digest).
Proof.
  intros Hsame.
  assert (x11kvs_hash P input len1 = x11kvs_hash P input' len2) as Heq.
  { unfold x11kvs_hash.
    rewrite <- (x11kvshash_firstn P input), <- (x11kvshash_firstn P input').
    rewrite Hsame. reflexivity. }
  split; [reflexivity |]. split; [exact Heq |].
  intros sizes Hlen.
  destruct (x11kvshash_total P sizes input HASHX11KVS_MAX_LEVEL)
    as (digest & Hd & H32); [unfold HASHX11KVS_MAX_LEVEL; lia | assumption |].
  exists digest. split; [assumption |]. rewrite <- Heq. split; exact Hd.
Qed.

Lemma x11kvs_hash_len_noninterference_witness :
  firstn 80 (count_header ++ [x01]) = firstn 80 (count_header ++ [x02; x03])
  /\ x11kvs_hash toy (count_header ++ [x01]) 81
     = x11kvs_hash toy (count_header ++ [x02; x03]) 0
  /\ digest_sizes toy /\ (80 <= length (count_header ++ [x01]))%nat
  /\ exists digest,
       length digest = 32%nat
       /\ x11kvs_hash toy (count_header ++ [x01]) 81 = Some digest
       /\ x11kvs_hash toy (count_header ++ [x02; x03]) 0 = Some digest.
Proof.
  split; [reflexivity |].
  destruct (x11kvs_hash_len_noninterference toy (count_header ++ [x01])
              (count_header ++ [x02; x03]) 81 0 eq_refl) as (_ & Heq & Hdigest).
  split; [exact Heq |]. split; [exact toy_sizes |]. split; [simpl; lia |].
  apply Hdigest; [exact toy_sizes | simpl; lia].
Defined.

(** ** Further properties of the leaf hash *)

(** X1: the [switch] of [x11kv] has no [default], and never needs one: the
    selector is in [0, 10], so every loop round runs exactly one of the
    eleven primitives on the 64 bytes of [hashA] and stores its digest. *)
Theorem x11kv_round_runs_one_primitive (P : primitives) (hashA : list byte) (i : Z) :
  let k := byte_at hashA (Z.to_nat (i mod 64)) mod HASHX11KV_NUMBER_ALGOS in
  0 <= k <= 10
  /\ exists f,
       x11kv_case P k = Some f
       /\ In f [ sph_blake512 P; sph_bmw512 P; sph_groestl512 P; sph_skein512 P;
                 sph_jh512 P; sph_keccak512 P; sph_luffa512 P; sph_cubehash512 P;
                 sph_shavite512 P; sph_simd512 P; sph_echo512 P ]
       /\ x11kv_round P hashA i = f (firstn 64 hashA).
Proof.
  intros k.
  assert (0 <= k < 11) as Hk
    by (subst k; unfold HASHX11KV_NUMBER_ALGOS; apply Z.mod_pos_bound; lia).
  split; [lia |].
  unfold x11kv_round. fold k.
  assert (k = 0 \/ k = 1 \/ k = 2 \/ k = 3 \/ k = 4 \/ k = 5 \/ k = 6
          \/ k = 7 \/ k = 8 \/ k = 9 \/ k = 10) as Hcases by lia.
  clearbody k.
  repeat (destruct Hcases as [-> | Hcases];
          [eexists; split; [reflexivity | split; [cbn [In]; tauto | reflexivity]] |]).
  subst k. eexists; split; [reflexivity | split; [cbn [In]; tauto | reflexivity]].
Qed.

Section LeafIndex.

Variable P : primitives.
Hypothesis sizes : digest_sizes P.

(** A loop round at an index below 64 on a 64-byte digest. *)
Lemma x11kv_round_small (hashA : list byte) (i : nat) :
  (i < 64)%nat -> length hashA = 64%nat ->
  x11kv_round P hashA (Z.of_nat i) = H_of P (byte_at hashA i mod 11) hashA
  /\ length (x11kv_round P hashA (Z.of_nat i)) = 64%nat.
Proof.
  intros Hi Hlen.
  rewrite x11kv_round_H_of, to_nat_mod64, Nat.mod_small by assumption.
  rewrite firstn_all2 by lia.
  split; [reflexivity |].
  apply H_of_length; [assumption | apply Z.mod_pos_bound; lia].
Qed.

Lemma x11kv_rounds_small (l : list nat) :
  forall hashA : list byte,
    Forall (fun i => (i < 64)%nat) l -> length hashA = 64%nat ->
    fold_left (x11kv_round P) (map Z.of_nat l) hashA
    = fold_left (fun h i => H_of P (byte_at h i mod 11) h) l hashA.
Proof.
  induction l as [| i l IH]; intros hashA Hall Hlen; [reflexivity |].
  inversion Hall as [| ? ? Hi Hl]; subst.
  cbn [map fold_left].
  destruct (x11kv_round_small hashA i Hi Hlen) as [Heq Hlen'].
  rewrite IH by assumption. rewrite Heq. reflexivity.
Qed.

End LeafIndex.

(** X2: the loop of [x11kv] runs at most five times, with [i] from 1 to at
    most 5, so [i % 64] is [i]: the selector of round [i] is byte [i] of the
    working digest, and [x11kv] is the chain written without the modulus. *)
Theorem x11kv_index_never_wraps (P : primitives) (input : list byte) :
  digest_sizes P -> (80 <= length input)%nat ->
  let hashA0 := sph_blake512 P (firstn 80 input) in
  let rounds := Z.to_nat (1 + byte_at hashA0 63 mod 5) in
  (1 <= rounds <= 5)%nat
  /\ Forall (fun i => (1 <= i <= 5)%nat /\ Z.of_nat i mod 64 = Z.of_nat i) (seq 1 rounds)
  /\ x11kv P input
     = Some (firstn 32 (fold_left (fun hashA i => H_of P (byte_at hashA i mod 11) hashA)
                                  (seq 1 rounds) hashA0)).
Proof.
  intros sizes Hlen hashA0 rounds.
  pose proof (Z.mod_pos_bound (byte_at hashA0 63) 5 ltac:(lia)) as Hmod.
  assert (1 <= rounds <= 5)%nat as Hrounds by (subst rounds; lia).
  split; [exact Hrounds |]. split.
  - apply Forall_forall. intros i Hi. apply in_seq in Hi.
    split; [lia |]. apply Z.mod_small. lia.
  - unfold x11kv. rewrite read_inside by (simpl; lia). cbn [skipn].
    unfold HASHX11KV_MIN_NUMBER_ITERATIONS, HASHX11KV_MAX_NUMBER_ITERATIONS, memcpy.
    change (6 - 2 + 1) with 5. fold hashA0.
    replace (Z.to_nat (2 + byte_at hashA0 63 mod 5 - 1)) with rounds
      by (subst rounds; f_equal; lia).
    rewrite (x11kv_rounds_small P sizes); [reflexivity | |].
    + apply Forall_forall. intros i Hi. apply in_seq in Hi. lia.
    + destruct sizes as [Hsph _]. inversion Hsph as [| ? ? Hb _]. apply Hb.
Qed.

Lemma x11kv_index_never_wraps_witness :
  digest_sizes toy /\ (80 <= length count_header)%nat
  /\ x11kv toy count_header
     = Some (firstn 32 (fold_left (fun hashA i => H_of toy (byte_at hashA i mod 11) hashA)
                                  (seq 1 3) (sph_blake512 toy (firstn 80 count_header)))).
Proof.
  split; [exact toy_sizes |]. split; [simpl; lia |].
  apply (x11kv_index_never_wraps toy count_header toy_sizes). simpl; lia.
Defined.

(** ** Further properties of the tree hash *)

(** X3: at every level, [x11kvshash] looks at the first 80 bytes of its
    input only: two buffers that agree on them give the same result. *)
Theorem x11kvshash_first_80_bytes
  (P : primitives) (input input' : list byte) (level : Z) :
  firstn 80 input = firstn 80 input' ->
  x11kvshash P input level = x11kvshash P input' level.
Proof.
  intros Hsame.
  rewrite <- (x11kvshash_firstn P input), <- (x11kvshash_firstn P input').
  rewrite Hsame. reflexivity.
Qed.

Lemma x11kvshash_first_80_bytes_witness :
  firstn 80 (count_header ++ [x01]) = firstn 80 (count_header ++ [xff; xfe])
  /\ x11kvshash toy (count_header ++ [x01]) 3
     = x11kvshash toy (count_header ++ [xff; xfe]) 3.
Proof.
  split; [reflexivity |].
  apply (x11kvshash_first_80_bytes toy (count_header ++ [x01])
           (count_header ++ [xff; xfe]) 3).
  reflexivity.
Defined.




(** *** The headers of the call tree *)

Lemma mod_add_le (a b m : Z) : 0 < m -> (a + b) mod m <= a mod m + b mod m.
Proof.
  intros Hm. rewrite Z.add_mod by lia.
  pose proof (Z.mod_pos_bound a m Hm). pose proof (Z.mod_pos_bound b m Hm).
  apply Z.mod_le; lia.
Qed.

(** The nonce of a child header exceeds the parent's by the drift word
    modulo 0xFFFF. *)
Lemma child_nonce_drift (h hash : list byte) (off : nat) :
  (76 <= length h)%nat ->
  (le_uint32_at (nextheader h (nextnonce (le32dec (skipn 76 h)) hash off)) 76
   - le_uint32_at h 76) mod 2 ^ 32
  = le_uint32_at hash off mod 65535.
Proof.
  intros Hlen. rewrite nextheader_read_back by assumption.
  rewrite nextnonce_le_uint32. unfold u32. rewrite Z.mod_mod by lia.
  rewrite Zminus_mod_idemp_l.
  replace (le_uint32_at h 76 + le_uint32_at hash off mod 65535 - le_uint32_at h 76)
    with (le_uint32_at hash off mod 65535) by lia.
  pose proof (Z.mod_pos_bound (le_uint32_at hash off) 65535 ltac:(lia)).
  apply Z.mod_small. lia.
Qed.

Lemma tree_header_root (root : list byte) (bound : Z) :
  length root = 80%nat -> 0 <= bound -> tree_header root bound root.
Proof.
  intros Hlen Hb. repeat split; try assumption.
  - rewrite Z.sub_diag. reflexivity.
  - rewrite Z.sub_diag. exact Hb.
Qed.

Lemma tree_header_child (root hash : list byte) (off : nat) (bound : Z) (h' : list byte) :
  length root = 80%nat ->
  tree_header (nextheader root (nextnonce (le32dec (skipn 76 root)) hash off)) bound h' ->
  tree_header root (bound + 65534) h'.
Proof.
  intros Hlen (Hl & Hpre & Hlo & Hhi).
  set (child := nextheader root (nextnonce (le32dec (skipn 76 root)) hash off)) in *.
  repeat split.
  - exact Hl.
  - rewrite Hpre. apply nextheader_prefix. lia.
  - apply Z.mod_pos_bound. lia.
  - replace (le_uint32_at h' 76 - le_uint32_at root 76)
      with ((le_uint32_at h' 76 - le_uint32_at child 76)
            + (le_uint32_at child 76 - le_uint32_at root 76)) by lia.
    pose proof (mod_add_le (le_uint32_at h' 76 - le_uint32_at child 76)
                  (le_uint32_at child 76 - le_uint32_at root 76) (2 ^ 32) ltac:(lia)) as Hsum.
    pose proof (child_nonce_drift root hash off ltac:(lia)) as Hdrift.
    fold child in Hdrift.
    pose proof (Z.mod_pos_bound (le_uint32_at hash off) 65535 ltac:(lia)).
    lia.
Qed.

Lemma x11kvshash_log_n_headers (P : primitives) (d : nat) :
  forall (input : list byte) (level : Z) (digest : list byte) (log : list (list byte)),
    length input = 80%nat ->
    x11kvshash_log_n P d input level = Some (digest, log) ->
    Forall (tree_header input (65534 * Z.of_nat d)) log.
Proof.
  induction d as [| d IH]; intros input level digest log Hlen Hrun.
  - cbn [x11kvshash_log_n] in Hrun.
    destruct (x11kv P input) as [hash |]; [| discriminate].
    destruct (level =? HASHX11KVS_MIN_LEVEL); [| discriminate].
    injection Hrun as _ <-. constructor; [| constructor].
    apply tree_header_root; [assumption | lia].
  - cbn [x11kvshash_log_n] in Hrun.
    destruct (x11kv P input) as [hash |]; [| discriminate].
    destruct (level =? HASHX11KVS_MIN_LEVEL).
    + injection Hrun as _ <-. constructor; [| constructor].
      apply tree_header_root; [assumption | lia].
    + cbv zeta in Hrun.
      destruct (x11kvshash_log_n P d (nextheader input (nextnonce _ hash 24)) _)
        as [[hash1 log1] |] eqn:E1; [| discriminate].
      destruct (x11kvshash_log_n P d (nextheader input (nextnonce _ hash 28)) _)
        as [[hash2 log2] |] eqn:E2; [| discriminate].
      injection Hrun as _ <-. cbn [snd].
      apply IH in E1; [| apply length_nextheader; lia].
      apply IH in E2; [| apply length_nextheader; lia].
      replace (65534 * Z.of_nat (S d)) with (65534 * Z.of_nat d + 65534) by lia.
      constructor; [apply tree_header_root; [assumption | lia] |].
      apply Forall_app. split.
      * eapply Forall_impl; [| exact E1]. intros h'. apply tree_header_child. assumption.
      * eapply Forall_impl; [| exact E2]. intros h'. apply tree_header_child. assumption.
Qed.

(** X5: every header hashed in the call tree of an 80-byte header [h] at
    level [level] is 80 bytes long, carries the first 76 bytes of [h]
    unchanged, and has a nonce at most [65534 * (level - 1)] above the nonce
    of [h] modulo 2^32; at the level of the entry point the 127 nonces lie
    within 393204 of the header's. *)
Theorem x11kvshash_tree_headers (P : primitives) (h : list byte) (level : Z) :
  digest_sizes P -> length h = 80%nat -> 1 <= level < 2 ^ 32 ->
  exists digest log,
    x11kvshash_log P h level = Some (digest, log)
    /\ x11kvshash P h level = Some digest
    /\ Forall (tree_header h (65534 * (level - 1))) log
    /\ (level = HASHX11KVS_MAX_LEVEL -> Forall (tree_header h 393204) log).
Proof.
  intros sizes Hlen Hl.
  destruct (x11kvshash_log_n_length P sizes (depth level) h level)
    as (digest & log & Hlog & Hn); [lia | reflexivity | lia |].
  assert (x11kvshash P h level = Some digest) as Hd.
  { unfold x11kvshash. rewrite <- x11kvshash_log_n_digest. rewrite Hlog. reflexivity. }
  assert (Forall (tree_header h (65534 * (level - 1))) log) as Hall.
  { pose proof (x11kvshash_log_n_headers P (depth level) h level digest log Hlen Hlog) as H.
    rewrite depth_of_level in H by lia. rewrite Z2Nat.id in H by lia. exact H. }
  exists digest, log. repeat split; try assumption.
  intros ->. exact Hall.
Qed.

Lemma x11kvshash_tree_headers_witness :
  digest_sizes toy /\ length count_header = 80%nat /\ 1 <= 7 < 2 ^ 32
  /\ exists digest log,
       x11kvshash_log toy count_header 7 = Some (digest, log)
       /\ Forall (tree_header count_header 393204) log.
Proof.
  split; [exact toy_sizes |]. split; [reflexivity |]. split; [lia |].
  destruct (x11kvshash_tree_headers toy count_header 7 toy_sizes eq_refl ltac:(lia))
    as (digest & log & Hlog & _ & _ & H7).
  exists digest, log. split; [exact Hlog | apply H7; reflexivity].
Defined.

(** *** Degenerate drifts *)

Lemma split_low_byte (a r : Z) :
  0 <= a < 256 -> (a + 256 * r) mod 256 = a /\ (a + 256 * r) / 256 = r.
Proof.
  intros Ha. split.
  - symmetry. apply Z.mod_unique with (q := r); lia.
  - symmetry. apply Z.div_unique with (r := a); lia.
Qed.

(** Encoding what [le32dec] read from four bytes gives the four bytes back. *)
Lemma le32enc_le32dec (p : list byte) : length p = 4%nat -> le32enc (le32dec p) = p.
Proof.
  intros Hlen.
  destruct p as [| a [| b [| c [| d [| e p]]]]]; try discriminate.
  rewrite le32enc_le_bytes, le32dec_le_uint32.
  unfold le_bytes, le_uint32_at, byte_at. cbn [map nth Nat.add].
  pose proof (Z_of_byte_range a). pose proof (Z_of_byte_range b).
  pose proof (Z_of_byte_range c). pose proof (Z_of_byte_range d).
  set (A := Z_of_byte a) in *. set (B := Z_of_byte b) in *.
  set (C := Z_of_byte c) in *. set (D := Z_of_byte d) in *.
  change (256 ^ 0) with 1. change (256 ^ 1) with 256.
  change (256 ^ 2) with (256 * 256). change (256 ^ 3) with (256 * 256 * 256).
  rewrite Z.div_1_r. rewrite <- !Z.div_div by lia.
  replace (A + 256 * B + 65536 * C + 16777216 * D)
    with (A + 256 * (B + 256 * (C + 256 * (D + 256 * 0)))) by lia.
  destruct (split_low_byte A (B + 256 * (C + 256 * (D + 256 * 0)))) as [-> ->]; [lia |].
  destruct (split_low_byte B (C + 256 * (D + 256 * 0))) as [-> ->]; [lia |].
  destruct (split_low_byte C (D + 256 * 0)) as [-> ->]; [lia |].
  destruct (split_low_byte D 0) as [-> _]; [lia |].
  subst A B C D. rewrite !byte_of_Z_of_byte. reflexivity.
Qed.

(** A header rebuilt with its own nonce is the header. *)
Lemma nextheader_same_nonce (h : list byte) :
  length h = 80%nat -> nextheader h (le32dec (skipn 76 h)) = h.
Proof.
  intros Hlen. rewrite nextheader_app by lia.
  rewrite le32enc_le32dec by (rewrite length_skipn; lia).
  apply firstn_skipn.
Qed.

Lemma nextheader_inj (h : list byte) (x y : Z) :
  (76 <= length h)%nat -> 0 <= x < 2 ^ 32 -> 0 <= y < 2 ^ 32 ->
  nextheader h x = nextheader h y -> x = y.
Proof.
  intros Hlen Hx Hy Heq.
  apply (f_equal (fun l => le32dec (skipn 76 l))) in Heq.
  rewrite !nextheader_nonce, !le32dec_le32enc, !u32_small in Heq by assumption.
  exact Heq.
Qed.

Lemma add_mod_cancel (n a b : Z) :
  0 <= a < 2 ^ 32 -> 0 <= b < 2 ^ 32 ->
  (n + a) mod 2 ^ 32 = (n + b) mod 2 ^ 32 -> a = b.
Proof.
  intros Ha Hb Heq.
  assert ((a - b) mod 2 ^ 32 = 0) as Hz.
  { replace (a - b) with ((n + a) - (n + b)) by lia.
    rewrite Zminus_mod, Heq, Z.sub_diag. reflexivity. }
  apply Z.mod_divide in Hz; [| lia]. destruct Hz as [k Hk]. nia.
Qed.

Lemma nextnonce_eq_iff (nonce : Z) (hash : list byte) (off off' : nat) :
  nextnonce nonce hash off = nextnonce nonce hash off'
  <-> le_uint32_at hash off mod 65535 = le_uint32_at hash off' mod 65535.
Proof.
  unfold nextnonce, u32, HASHX11KVS_MAX_DRIFT. rewrite !le32dec_skipn.
  pose proof (Z.mod_pos_bound (le_uint32_at hash off) 65535 ltac:(lia)).
  pose proof (Z.mod_pos_bound (le_uint32_at hash off') 65535 ltac:(lia)).
  split.
  - apply add_mod_cancel; lia.
  - intros ->. reflexivity.
Qed.

(** X6: the two children of a node share a header exactly when the two
    drift words of the node's digest agree modulo 0xFFFF; the two subtrees
    are then the same computation, and the node hashes its own digest
    followed by one child digest twice. *)
Theorem x11kvshash_equal_siblings
  (P : primitives) (h : list byte) (level : Z) (selfDigest : list byte) :
  digest_sizes P -> length h = 80%nat -> 1 < level < 2 ^ 32 ->
  x11kv P h = Some selfDigest ->
  let nonce := le32dec (skipn 76 h) in
  let nextheader1 := nextheader h (nextnonce nonce selfDigest 24) in
  let nextheader2 := nextheader h (nextnonce nonce selfDigest 28) in
  (nextheader1 = nextheader2
   <-> le_uint32_at selfDigest 24 mod 65535 = le_uint32_at selfDigest 28 mod 65535)
  /\ (nextheader1 = nextheader2 ->
      exists digestChild,
        x11kvshash P nextheader1 (level - 1) = Some digestChild
        /\ x11kvshash P nextheader2 (level - 1) = Some digestChild
        /\ x11kvshash P h level
           = Some (SHA256 P (SHA256 P (selfDigest ++ digestChild ++ digestChild)))).
Proof.
  intros sizes Hlen Hl Hleaf nonce nextheader1 nextheader2.
  split.
  - rewrite <- nextnonce_eq_iff with (nonce := nonce). subst nextheader1 nextheader2.
    split.
    + apply nextheader_inj; [lia | apply u32_range | apply u32_range].
    + intros ->. reflexivity.
  - intros Hsame.
    destruct (x11kvshash_node P sizes h level) as
      (hash & hash1 & hash2 & Hleaf' & Hh & E1 & H1 & E2 & H2 & Hnode);
      [lia | unfold HASHX11KVS_MIN_LEVEL; lia | lia |].
    rewrite Hleaf in Hleaf'. injection Hleaf' as <-.
    rewrite u32_small in E1, E2 by lia.
    fold nonce nextheader1 in E1. fold nonce nextheader2 in E2.
    assert (hash2 = hash1) as -> by (rewrite <- Hsame in E2; congruence).
    exists hash1. repeat split; assumption.
Qed.

Lemma x11kvshash_equal_siblings_witness :
  digest_sizes zero_primitives /\ length zero_header = 80%nat /\ 1 < 2 < 2 ^ 32
  /\ x11kv zero_primitives zero_header = Some (repeat x00 32)
  /\ nextheader zero_header (nextnonce (le32dec (skipn 76 zero_header)) (repeat x00 32) 24)
     = nextheader zero_header (nextnonce (le32dec (skipn 76 zero_header)) (repeat x00 32) 28).
Proof.
  split; [exact zero_sizes |]. split; [reflexivity |]. split; [lia |].
  split; [reflexivity |].
  apply (x11kvshash_equal_siblings zero_primitives zero_header 2 (repeat x00 32)
           zero_sizes eq_refl ltac:(lia) eq_refl).
  reflexivity.
Defined.

(** X7: a child header is the parent header itself exactly when the drift
    word it is derived from (the code takes it at offset 24 or 28 of the
    node's digest) is a multiple of 0xFFFF; the child subtree is then the
    tree hash of the parent one level lower. *)
Theorem x11kvshash_child_is_parent
  (P : primitives) (h : list byte) (level : Z) (selfDigest : list byte) (off : nat) :
  length h = 80%nat ->
  let child := nextheader h (nextnonce (le32dec (skipn 76 h)) selfDigest off) in
  (child = h <-> le_uint32_at selfDigest off mod 65535 = 0)
  /\ (le_uint32_at selfDigest off mod 65535 = 0 ->
      x11kvshash P child (level - 1) = x11kvshash P h (level - 1)).
Proof.
  intros Hlen child.
  assert (child = h <-> le_uint32_at selfDigest off mod 65535 = 0) as Hiff.
  { subst child. split.
    - intros Heq.
      rewrite <- (nextheader_same_nonce h Hlen) in Heq at 3.
      apply nextheader_inj in Heq;
        [| lia | apply u32_range
         | rewrite le32dec_skipn; apply le_uint32_at_range].
      rewrite nextnonce_le_uint32, le32dec_skipn in Heq.
      pose proof (le_uint32_at_range h 76).
      pose proof (Z.mod_pos_bound (le_uint32_at selfDigest off) 65535 ltac:(lia)).
      rewrite <- (Z.mod_small (le_uint32_at h 76) (2 ^ 32)) in Heq at 2 by lia.
      replace (le_uint32_at h 76) with (le_uint32_at h 76 + 0) in Heq at 2 by lia.
      apply add_mod_cancel in Heq; lia.
    - intros Hz. rewrite nextnonce_le_uint32, Hz, Z.add_0_r.
      rewrite Z.mod_small by apply le_uint32_at_range.
      rewrite <- le32dec_skipn. apply nextheader_same_nonce. assumption. }
  split; [exact Hiff |].
  intros Hz. apply Hiff in Hz. rewrite Hz. reflexivity.
Qed.

Lemma x11kvshash_child_is_parent_witness :
  length count_header = 80%nat
  /\ le_uint32_at (repeat x00 28 ++ [xfe; xff; x01; x00]) 28 = 131070
  /\ nextheader count_header
       (nextnonce (le32dec (skipn 76 count_header))
          (repeat x00 28 ++ [xfe; xff; x01; x00]) 28)
     = count_header.
Proof.
  split; [reflexivity |]. split; [reflexivity |].
  apply (x11kvshash_child_is_parent toy count_header 3
           (repeat x00 28 ++ [xfe; xff; x01; x00]) 28 eq_refl).
  reflexivity.
Defined.

(** ** The hash computations of a run *)

Lemma calls_of_app (kind : hash_call -> bool) (l l' : list hash_call) :
  calls_of kind (l ++ l') = calls_of kind l + calls_of kind l'.
Proof. unfold calls_of. rewrite filter_app, length_app. lia. Qed.

Section Calls.

Variable P : primitives.
Hypothesis sizes : digest_sizes P.

Lemma x11kv_round_calls_step (st : list byte * list hash_call) (i : Z) :
  length (fst st) = 64%nat ->
  exists c,
    x11kv_round_calls P st i = (x11kv_round P (fst st) i, snd st ++ [c])
    /\ loop_call c
    /\ length (x11kv_round P (fst st) i) = 64%nat.
Proof.
  intros Hlen. unfold x11kv_round_calls, x11kv_round.
  set (k := byte_at (fst st) (Z.to_nat (i mod 64)) mod HASHX11KV_NUMBER_ALGOS).
  assert (0 <= k < HASHX11KV_NUMBER_ALGOS) as Hk
    by (subst k; unfold HASHX11KV_NUMBER_ALGOS; apply Z.mod_pos_bound; lia).
  destruct (x11kv_case_defined P k Hk) as [f Hf]. rewrite Hf.
  exists (sph_call k (firstn 64 (fst st))). split; [reflexivity |]. split.
  - split; [reflexivity |]. split; [reflexivity |].
    exists k, (firstn 64 (fst st)). split; [reflexivity |].
    unfold HASHX11KV_NUMBER_ALGOS in Hk. split; [lia |].
    rewrite length_firstn. lia.
  - apply (x11kv_case_length P sizes k f Hf).
Qed.

Lemma x11kv_rounds_calls (l : list Z) :
  forall st : list byte * list hash_call,
    length (fst st) = 64%nat ->
    exists rest,
      fold_left (x11kv_round_calls P) l st
      = (fold_left (x11kv_round P) l (fst st), snd st ++ rest)
      /\ length rest = length l
      /\ Forall loop_call rest.
Proof.
  induction l as [| i l IH]; intros st Hlen.
  - exists []. rewrite app_nil_r. destruct st; repeat split; constructor.
  - cbn [fold_left].
    destruct (x11kv_round_calls_step st i Hlen) as (c & Hstep & Hc & Hlen').
    rewrite Hstep.
    destruct (IH (x11kv_round P (fst st) i, snd st ++ [c]) Hlen')
      as (rest & Hfold & Hrest & Hall).
    exists (c :: rest). cbn [fst snd] in Hfold. rewrite Hfold.
    rewrite <- app_assoc. repeat split.
    + cbn [length]. lia.
    + constructor; assumption.
Qed.

Lemma loop_calls_count (rest : list hash_call) :
  Forall loop_call rest ->
  calls_of is_sph rest = Z.of_nat (length rest)
  /\ calls_of is_sha256 rest = 0
  /\ Forall well_sized rest.
Proof.
  unfold calls_of. induction 1 as [| c rest (Hsph & Hsha & k & msg & -> & Hk & Hmsg) _ IH].
  - repeat split. constructor.
  - destruct IH as (IH1 & IH2 & IH3). cbn [filter is_sph is_sha256 length].
    repeat split; try lia.
    constructor; [| assumption]. cbn [well_sized]. split; [lia | left; assumption].
Qed.

(** The calls of [x11kv]: the blake512 of the 80 header bytes, then one sph
    computation on 64 bytes per loop round. *)
Lemma x11kv_calls_inside (input : list byte) :
  (80 <= length input)%nat ->
  exists rest,
    x11kv_calls P input
    = Some (leafHash (H_of P) (firstn 80 input), sph_call 0 (firstn 80 input) :: rest)
    /\ Z.of_nat (length rest) = iterations (H_of P) (firstn 80 input) - 1
    /\ Forall loop_call rest.
Proof.
  intros Hlen. unfold x11kv_calls.
  rewrite read_inside by (simpl; lia). cbn [skipn].
  set (header := firstn 80 input).
  set (m := Z.to_nat _).
  destruct (x11kv_rounds_calls (map Z.of_nat (seq 1 m))
              (sph_blake512 P header, [sph_call 0 header]))
    as (rest & Hfold & Hrest & Hall).
  { destruct sizes as [Hsph _]. inversion Hsph as [| ? ? Hb _]. apply Hb. }
  exists rest. rewrite Hfold. cbn [fst snd app].
  repeat split; try assumption.
  - unfold memcpy, leafHash. rewrite x11kv_rounds_workingDigest by assumption.
    reflexivity.
  - rewrite Hrest, length_map, length_seq. subst m.
    pose proof (iterations_range P header).
    rewrite Z2Nat.id; [reflexivity |].
    unfold HASHX11KV_MIN_NUMBER_ITERATIONS, HASHX11KV_MAX_NUMBER_ITERATIONS.
    pose proof (Z.mod_pos_bound (byte_at (sph_blake512 P header) 63) (6 - 2 + 1)
                  ltac:(lia)).
    lia.
Qed.

(** The counts and sizes of the calls of one [x11kv]. *)
Lemma x11kv_calls_count (input : list byte) :
  (80 <= length input)%nat ->
  exists calls,
    x11kv_calls P input = Some (leafHash (H_of P) (firstn 80 input), calls)
    /\ calls_of is_sph calls = iterations (H_of P) (firstn 80 input)
    /\ calls_of is_sha256 calls = 0
    /\ Forall well_sized calls.
Proof.
  intros Hlen.
  destruct (x11kv_calls_inside input Hlen) as (rest & Hrun & Hn & Hall).
  destruct (loop_calls_count rest Hall) as (Hsph & Hsha & Hsized).
  eexists. split; [exact Hrun |].
  change (sph_call 0 (firstn 80 input) :: rest)
    with ([sph_call 0 (firstn 80 input)] ++ rest).
  rewrite !calls_of_app, Hsph, Hsha.
  repeat split.
  - unfold calls_of. cbn [filter is_sph length]. lia.
  - apply Forall_app. split; [| assumption].
    constructor; [| constructor]. cbn [well_sized]. split; [lia |].
    right. split; [reflexivity |]. rewrite length_firstn. lia.
Qed.

Lemma sha256_double_hash_calls_count (input : list byte) :
  length input = 96%nat ->
  fst (sha256_double_hash_calls P input 96) = sha256_double_hash P input 96
  /\ calls_of is_sha256 (snd (sha256_double_hash_calls P input 96)) = 2
  /\ calls_of is_sph (snd (sha256_double_hash_calls P input 96)) = 0
  /\ Forall well_sized (snd (sha256_double_hash_calls P input 96)).
Proof.
  intros Hlen. repeat split.
  unfold sha256_double_hash_calls. cbn [snd].
  constructor; [| constructor; [| constructor]]; cbn [well_sized].
  - left. rewrite length_firstn. lia.
  - right. rewrite length_firstn. destruct sizes as [_ Hs]. rewrite Hs. reflexivity.
Qed.

Lemma x11kvshash_calls_n_count (d : nat) :
  forall (input : list byte) (level : Z),
    1 <= level < 2 ^ 32 -> depth level = d -> (80 <= length input)%nat ->
    exists digest calls,
      x11kvshash_calls_n P d input level = Some (digest, calls)
      /\ x11kvshash_n P d input level = Some digest
      /\ length digest = 32%nat
      /\ calls_of is_sha256 calls = 2 ^ level - 2
      /\ 2 * (2 ^ level - 1) <= calls_of is_sph calls <= 6 * (2 ^ level - 1)
      /\ Forall well_sized calls.
Proof.
  induction d as [| d IH]; intros input level Hl Hd Hlen;
    destruct (x11kv_calls_count input Hlen) as (calls0 & Hrun & Hsph & Hsha & Hsized);
    pose proof (iterations_range P (firstn 80 input)) as Hit;
    pose proof (leafHash_length P sizes (firstn 80 input)) as Hh;
    cbn [x11kvshash_calls_n x11kvshash_n];
    rewrite Hrun, (x11kv_inside P sizes input Hlen); cbn [fst snd];
    destruct (Z.eqb_spec level HASHX11KVS_MIN_LEVEL) as [-> | Hne].
  - do 2 eexists. split; [reflexivity |]. split; [reflexivity |].
    rewrite Hsph, Hsha, memcpy_all by assumption. unfold HASHX11KVS_MIN_LEVEL.
    change (2 ^ 1) with 2. repeat split; try lia; assumption.
  - rewrite (depth_descend level ltac:(lia) Hne) in Hd. discriminate.
  - rewrite depth_min in Hd. discriminate.
  - rewrite (depth_descend level ltac:(lia) Hne) in Hd. injection Hd as Hd.
    unfold HASHX11KVS_MIN_LEVEL in Hne.
    assert (u32 (level - 1) = level - 1) as Hu by (apply u32_small; lia).
    cbv zeta.
    set (hash := leafHash (H_of P) (firstn 80 input)) in *.
    set (nonce := le32dec (skipn 76 input)).
    destruct (IH (nextheader input (nextnonce nonce hash 24)) (u32 (level - 1)))
      as (hash1 & calls1 & -> & -> & H1 & Hsha1 & Hsph1 & Hsized1);
      [rewrite Hu; lia | assumption | rewrite length_nextheader; lia |].
    destruct (IH (nextheader input (nextnonce nonce hash 28)) (u32 (level - 1)))
      as (hash2 & calls2 & -> & -> & H2 & Hsha2 & Hsph2 & Hsized2);
      [rewrite Hu; lia | assumption | rewrite length_nextheader; lia |].
    cbn [fst snd]. rewrite !memcpy_all by assumption.
    destruct (sha256_double_hash_calls_count (hash ++ hash1 ++ hash2))
      as (Hout & Hout_sha & Hout_sph & Hout_sized);
      [rewrite !length_app, Hh, H1, H2; reflexivity |].
    do 2 eexists. split; [reflexivity |]. rewrite Hout.
    split; [reflexivity |].
    split; [apply sha256_double_hash_length; assumption |].
    rewrite Hu in Hsha1, Hsha2, Hsph1, Hsph2.
    rewrite !calls_of_app, Hsph, Hsha, Hsha1, Hsha2, Hout_sha, Hout_sph.
    assert (2 ^ level = 2 * 2 ^ (level - 1)) as Hpow.
    { replace level with (Z.succ (level - 1)) at 1 by lia.
      apply Z.pow_succ_r. lia. }
    split; [lia |]. split; [lia |].
    repeat (apply Forall_app; split; try assumption).
Qed.

End Calls.

(** X8: on an input of at least 80 bytes [x11kv] makes between 2 and 6 hash
    computations and no SHA-256: first blake512 on the 80 header bytes, then
    [1 + (byte 63 of that digest) mod 5] sph computations, each on exactly
    the 64 bytes of the working digest. *)
Theorem x11kv_hash_calls (P : primitives) (input : list byte) :
  digest_sizes P -> (80 <= length input)%nat ->
  exists digest rest,
    x11kv_calls P input = Some (digest, sph_call 0 (firstn 80 input) :: rest)
    /\ x11kv P input = Some digest
    /\ Z.of_nat (length rest) = 1 + byte_at (sph_blake512 P (firstn 80 input)) 63 mod 5
    /\ (1 <= length rest <= 5)%nat
    /\ Forall (fun c => exists k msg,
                 c = sph_call k msg /\ 0 <= k <= 10 /\ length msg = 64%nat) rest.
Proof.
  intros sizes Hlen.
  destruct (x11kv_calls_inside P sizes input Hlen) as (rest & Hrun & Hn & Hall).
  pose proof (iterations_range P (firstn 80 input)) as Hit.
  exists (leafHash (H_of P) (firstn 80 input)), rest.
  split; [exact Hrun |]. split; [apply x11kv_inside; assumption |].
  split; [rewrite Hn; unfold iterations; change (H_of P 0) with (sph_blake512 P); lia |].
  split; [lia |].
  eapply Forall_impl; [| exact Hall]. intros c (_ & _ & Hc). exact Hc.
Qed.

Lemma x11kv_hash_calls_witness :
  digest_sizes toy /\ (80 <= length count_header)%nat
  /\ exists digest rest,
       x11kv_calls toy count_header
       = Some (digest, sph_call 0 (firstn 80 count_header) :: rest)
       /\ (1 <= length rest <= 5)%nat.
Proof.
  split; [exact toy_sizes |]. split; [simpl; lia |].
  destruct (x11kv_hash_calls toy count_header toy_sizes ltac:(simpl; lia))
    as (digest & rest & Hrun & _ & _ & Hn & _).
  exists digest, rest. split; [exact Hrun | exact Hn].
Defined.

(** X9: a run of [x11kvshash] at a level in [1, 2^32) on an input of at
    least 80 bytes makes exactly [2 ^ level - 2] SHA-256 computations (two
    per internal node, none at level 1) and between [2 * (2 ^ level - 1)]
    and [6 * (2 ^ level - 1)] sph computations; the entry point makes 126
    SHA-256 and between 254 and 762 sph computations. *)
Theorem x11kvshash_hash_calls (P : primitives) (input : list byte) (level len : Z) :
  digest_sizes P -> (80 <= length input)%nat -> 1 <= level < 2 ^ 32 ->
  (exists digest calls,
     x11kvshash_calls P input level = Some (digest, calls)
     /\ x11kvshash P input level = Some digest
     /\ calls_of is_sha256 calls = 2 ^ level - 2
     /\ 2 * (2 ^ level - 1) <= calls_of is_sph calls <= 6 * (2 ^ level - 1))
  /\ (exists digest calls,
        x11kvshash_calls P input HASHX11KVS_MAX_LEVEL = Some (digest, calls)
        /\ x11kvs_hash P input len = Some digest
        /\ calls_of is_sha256 calls = 126
        /\ 254 <= calls_of is_sph calls <= 762).
Proof.
  intros sizes Hlen Hl. split.
  - destruct (x11kvshash_calls_n_count P sizes (depth level) input level)
      as (digest & calls & Hrun & Hd & _ & Hsha & Hsph & _);
      [lia | reflexivity | lia |].
    exists digest, calls. repeat split; assumption || apply Hsph.
  - destruct (x11kvshash_calls_n_count P sizes (depth 7) input 7)
      as (digest & calls & Hrun & Hd & _ & Hsha & Hsph & _);
      [lia | reflexivity | lia |].
    exists digest, calls. change (2 ^ 7) with 128 in *.
    repeat split; try assumption; lia.
Qed.

Lemma x11kvshash_hash_calls_witness :
  digest_sizes toy /\ (80 <= length count_header)%nat /\ 1 <= 3 < 2 ^ 32
  /\ exists digest calls,
       x11kvshash_calls toy count_header 3 = Some (digest, calls)
       /\ calls_of is_sha256 calls = 2 ^ 3 - 2
       /\ 2 * (2 ^ 3 - 1) <= calls_of is_sph calls <= 6 * (2 ^ 3 - 1).
Proof.
  split; [exact toy_sizes |]. split; [simpl; lia |]. split; [lia |].
  destruct (x11kvshash_hash_calls toy count_header 3 80 toy_sizes
              ltac:(simpl; lia) ltac:(lia))
    as ((digest & calls & Hrun & _ & Hsha & Hsph) & _).
  exists digest, calls. split; [exact Hrun |]. split; [exact Hsha | exact Hsph].
Defined.



(** The run on the counting header at level 7: 127 leaf hashes made of 506
    sph computations, and 126 SHA-256 computations. *)
Example calls_level7 :
  option_map (fun r => (calls_of is_sph (snd r), calls_of is_sha256 (snd r)))
             (x11kvshash_calls toy count_header 7)
  = Some (506, 126).
Proof. vm_compute. reflexivity. Qed.

(** ** The double SHA-256 and the wrap of the nonce *)



(** X12: the nonce written in a child header is the plain sum of the
    parent's nonce and the drift whenever that sum fits in 32 bits, which
    holds for every parent nonce up to [2^32 - 65535]; otherwise it is the
    sum minus 2^32, a value below 65534 and below the parent's nonce. *)
Theorem child_nonce_wrap (h hash : list byte) (off : nat) :
  (76 <= length h)%nat ->
  let nonce := le_uint32_at h 76 in
  let drift := le_uint32_at hash off mod HASHX11KVS_MAX_DRIFT in
  let child := le_uint32_at (nextheader h (nextnonce (le32dec (skipn 76 h)) hash off)) 76 in
  0 <= drift <= 65534
  /\ (nonce + drift < 2 ^ 32 -> child = nonce + drift)
  /\ (nonce <= 2 ^ 32 - 65535 -> child = nonce + drift)
  /\ (2 ^ 32 <= nonce + drift ->
      child = nonce + drift - 2 ^ 32 /\ child < 65534 /\ child < nonce).
Proof.
  intros Hlen nonce drift child.
  pose proof (le_uint32_at_range h 76) as Hn. fold nonce in Hn.
  pose proof (Z.mod_pos_bound (le_uint32_at hash off) 65535 ltac:(lia)) as Hd.
  change 65535 with HASHX11KVS_MAX_DRIFT in Hd at 1 2. fold drift in Hd.
  assert (child = (nonce + drift) mod 2 ^ 32) as Hchild.
  { subst child. rewrite nextheader_read_back by assumption.
    rewrite nextnonce_le_uint32. unfold u32. rewrite Z.mod_mod by lia. reflexivity. }
  assert (nonce + drift < 2 ^ 32 -> child = nonce + drift) as Hfit.
  { intros Hlt. rewrite Hchild. apply Z.mod_small. lia. }
  split; [lia |]. split; [exact Hfit |]. split; [intros Hle; apply Hfit; lia |].
  intros Hge.
  assert (child = nonce + drift - 2 ^ 32) as Hw.
  { rewrite Hchild. symmetry. apply Z.mod_unique with (q := 1); lia. }
  lia.
Qed.

Lemma child_nonce_wrap_witness :
  (76 <= length (repeat xff 80))%nat
  /\ 2 ^ 32 <= le_uint32_at (repeat xff 80) 76
               + le_uint32_at (repeat x00 24 ++ [x05; x00; x00; x00]) 24 mod 65535
  /\ le_uint32_at
       (nextheader (repeat xff 80)
          (nextnonce (le32dec (skipn 76 (repeat xff 80)))
             (repeat x00 24 ++ [x05; x00; x00; x00]) 24)) 76
     = 4
  /\ (76 <= length count_header)%nat
  /\ le_uint32_at count_header 76 <= 2 ^ 32 - 65535
  /\ le_uint32_at
       (nextheader count_header
          (nextnonce (le32dec (skipn 76 count_header))
             (repeat x00 24 ++ [x05; x00; x00; x00]) 24)) 76
     = le_uint32_at count_header 76 + 5.
Proof.
  split; [simpl; lia |]. split; [vm_compute; discriminate |].
  split.
  { destruct (child_nonce_wrap (repeat xff 80) (repeat x00 24 ++ [x05; x00; x00; x00]) 24
                ltac:(simpl; lia)) as (_ & _ & _ & Hwrap).
    destruct Hwrap as (Hw & _ & _); [vm_compute; discriminate |].
    rewrite Hw. reflexivity. }
  split; [simpl; lia |]. split; [vm_compute; discriminate |].
  destruct (child_nonce_wrap count_header (repeat x00 24 ++ [x05; x00; x00; x00]) 24
              ltac:(simpl; lia)) as (_ & _ & Hfit & _).
  rewrite Hfit; [reflexivity | vm_compute; discriminate].
Defined.
